(** * The events collections of [site/_collections/events.js]

    A shallow embedding of the Eleventy collection builders [currentEvents],
    [pastEvents] and [eventTags], together with the helpers they are made of
    ([getEvents], [processSession], [getAuthorData], [uniqueSpeakers],
    [uniqueTopics], [uniqueLocations]), and the properties of them that the
    specification states.

    Modelling conventions.
    - JavaScript objects with a fixed shape are records; each record lives in
      a module of its own so that the fields keep the property names of the
      source ([Person.title], [Session.title], ...).
    - A property that may be missing ([undefined]) and is read through [??]
      is an [option]; the [??] is [default].
    - [authorsData] is a JSON object used as a dictionary from handles to
      author records: a [gmap string AuthorData.t] holds the entries of the
      JSON file, and [authorsData[h]] is read as JavaScript reads it, through
      the entries first and then through the properties that the object
      inherits from [Object.prototype] ([authorsData_get]).
    - [throw new Error(msg)] is the [Throw msg] result; [Array.prototype.map]
      with a callback that may throw is [mapM], which stops at the first
      element whose callback throws.
    - Dates are the time values of JavaScript [Date] objects (milliseconds
      since the epoch), integers.
    - The modules the file [require]s ([i18n], [Img], the site constants, the
      date utilities) and the built-in [String.prototype.localeCompare] are
      the members of the class [Externals]. *)

From stdpp Require Import gmap strings list sorting.
From Stdlib Require Import ZArith Lia OrdersEx.

Local Open Scope Z_scope.

(** ** Thrown errors *)

Inductive result (A : Type) : Type :=
  | Ok (a : A)
  | Throw (message : string).
Arguments Ok {A} a.
Arguments Throw {A} message.

Definition bind {A B : Type} (r : result A) (k : A -> result B) : result B :=
  match r with
  | Ok a => k a
  | Throw m => Throw m
  end.

Notation "'do' x <- r ; k" := (bind r (fun x => k))
  (at level 10, x name, r at level 100, k at level 200).

(** [l.map(f)] for a callback that may throw: elements are visited from
    index 0 upwards and the first exception leaves the whole call. *)
Fixpoint mapM {A B : Type} (f : A -> result B) (l : list A) : result (list B) :=
  match l with
  | [] => Ok []
  | x :: l' =>
      do y <- f x;
      do ys <- mapM f l';
      Ok (y :: ys)
  end.

(** ** Built-in array operations *)

(** [l.sort(cmp)]: the element [x] is placed after [y] exactly when
    [cmp(x, y) > 0].  The sort of ECMAScript is stable, and for a consistent
    comparator its result is the one computed here by insertion. *)
Fixpoint sort_insert {A : Type} (cmp : A -> A -> Z) (x : A) (l : list A) : list A :=
  match l with
  | [] => [x]
  | y :: l' => if 0 <? cmp x y then y :: sort_insert cmp x l' else x :: y :: l'
  end.

Fixpoint Array_sort {A : Type} (cmp : A -> A -> Z) (l : list A) : list A :=
  match l with
  | [] => []
  | x :: l' => sort_insert cmp x (Array_sort cmp l')
  end.

(** [l.findIndex(p)], counting from [i]; [-1] when no element satisfies [p]. *)
Fixpoint findIndex_from {A : Type} (p : A -> bool) (l : list A) (i : Z) : Z :=
  match l with
  | [] => -1
  | x :: l' => if p x then i else findIndex_from p l' (i + 1)
  end.

Definition findIndex {A : Type} (p : A -> bool) (l : list A) : Z :=
  findIndex_from p l 0.

(** [l.filter((x, i) => p(x, i))], the callback receiving the index too. *)
Fixpoint filter_from {A : Type} (p : A -> Z -> bool) (l : list A) (i : Z) : list A :=
  match l with
  | [] => []
  | x :: l' =>
      if p x i then x :: filter_from p l' (i + 1) else filter_from p l' (i + 1)
  end.

Definition Array_filter_index {A : Type} (p : A -> Z -> bool) (l : list A) : list A :=
  filter_from p l 0.

(** [[...new Set(l)]]: the values of [l] in insertion order, a value being
    inserted only when it is not yet there (strings are compared exactly). *)
Fixpoint Set_add_all (seen : list string) (l : list string) : list string :=
  match l with
  | [] => []
  | x :: l' =>
      if existsb (String.eqb x) seen then Set_add_all seen l'
      else x :: Set_add_all (x :: seen) l'
  end.

Definition Set_spread (l : list string) : list string := Set_add_all [] l.

(** ** Data *)

(** An entry of [_data/authorsData.json]. *)
Module AuthorData.
Record t : Type := {
  image : option string;
  twitter : option string;
  linkedin : option string;
}.
End AuthorData.

(** [EventPersonCollectionItem], what [getAuthorData] returns. *)
Module Person.
Record t : Type := {
  image : string;
  title : string;
  twitter : option string;
  linkedin : option string;
  handle : string;
}.
End Person.

(** The argument object of the [Img] shortcode. *)
Module ImgArgs.
Record t : Type := {
  src : string;
  width : Z;
  height : Z;
  alt : string;
  class : option string;
}.
End ImgArgs.

(** A session as it is written in the front matter of an event. A session
    of type ['speaker'] is read through [speaker], any other one through
    [participants]. *)
Module RawSession.
Record t : Type := {
  title : string;
  description : string;
  type : string;
  topics : list string;
  slidesUrl : option string;
  videoUrl : option string;
  speaker : string;
  participants : list string;
}.
End RawSession.

(** The [data] of an event page and the collection item that carries it. *)
Module EventData.
Record t : Type := {
  id : Z;
  title : string;
  externalUrl : option string;
  summary : string;
  location : string;
  date : Z;
  image : option string;
  sessions : list RawSession.t;
}.
End EventData.

Module CollectionItem.
Record t : Type := { data : EventData.t }.
End CollectionItem.

(** [EventSessionCollectionItem]. The payload of [processSession] carries
    either the property [speaker] or the property [participants], never
    both: the two shapes are the constructors of [people]. *)
Inductive people : Type :=
  | Speaker (speaker : Person.t)
  | Participants (participants : list Person.t).

Module Session.
Record t : Type := {
  title : string;
  description : string;
  type : string;
  topics : list string;
  slidesUrl : option string;
  videoUrl : option string;
  who : people;
  image : string;
}.
End Session.

(** [EventsCollectionItem]. *)
Module Event.
Record t : Type := {
  id : Z;
  title : string;
  externalUrl : option string;
  summary : string;
  location : string;
  date : Z;
  isPastEvent : bool;
  sessions : list Session.t;
  image : string;
}.
End Event.

(** An entry of the speakers facet. *)
Module SpeakerTag.
Record t : Type := { handle : string; title : string }.
End SpeakerTag.

(** The return value of [eventTags]. *)
Module Tags.
Record t : Type := {
  locations : list string;
  speakers : list SpeakerTag.t;
  topics : list string;
}.
End Tags.

(** The part of Eleventy's collection API that is used. *)
Record EleventyCollectionObject : Type := {
  getFilteredByGlob : string -> list CollectionItem.t;
}.

(** ** Required modules and built-ins

    What [events.js] takes from [_data/authorsData.json], [_filters/i18n],
    [_shortcodes/Img], [_data/site.json] and [_js/utils/events], none of
    which it defines, and the comparison of strings of the language.
    - [i18n key locale]: the second argument is [None] where the source
      calls [i18n] with the key only.
    - [isPastEvent] compares the date of a raw event with the clock; at a
      fixed evaluation instant it is a function of the event.
    - [sortAsc], [sortDesc] and [localeCompare] are comparators in the
      sense of [Array.prototype.sort]: negative, zero or positive.
    The members are total functions: an exception raised inside one of
    these collaborators is not part of the model. *)
Class Externals : Type := {
  authorsData : gmap string AuthorData.t;
  i18n : string -> option string -> string;
  Img : ImgArgs.t -> string;
  defaultAvatarImg : string;
  chromeImg : string;
  isPastEvent : CollectionItem.t -> bool;
  sortAsc : Event.t -> Event.t -> Z;
  sortDesc : Event.t -> Event.t -> Z;
  localeCompare : string -> string -> Z;
}.

Definition EVENT_PLACEHOLDER : string :=
  "image/fuiz5I8Iv7bV8YbrK2PKiY3Vask2/5nwgD8ftJ8DREfN1QF7z.png".

Definition avatar_class : string :=
  "flex-shrink-none height-600 width-600 rounded-full gap-right-300".

(** The names of the properties of [Object.prototype], which the object
    that [require] builds from a JSON file inherits: the ones of ECMAScript
    and of its annex for web browsers. *)
Definition Object_prototype : list string :=
  [ "constructor"; "hasOwnProperty"; "isPrototypeOf"; "propertyIsEnumerable";
    "toLocaleString"; "toString"; "valueOf"; "__proto__";
    "__defineGetter__"; "__defineSetter__";
    "__lookupGetter__"; "__lookupSetter__" ].

(** What [getAuthorData] reads of an inherited property.  The value is a
    function, or for [__proto__] the prototype object itself: its [typeof]
    is not ['undefined'], and it has no [image], [twitter] or [linkedin]. *)
Definition inheritedValue : AuthorData.t :=
  {| AuthorData.image := None;
     AuthorData.twitter := None;
     AuthorData.linkedin := None |}.

Section Collections.
Context {X : Externals}.

(** [authorsData[authorHandle]]: the entry of the JSON file when there is
    one, otherwise the inherited property of that name when there is one,
    otherwise [undefined], which is [None]. *)
Definition authorsData_get (authorHandle : string) : option AuthorData.t :=
  match authorsData !! authorHandle with
  | Some authorData => Some authorData
  | None =>
      if existsb (String.eqb authorHandle) Object_prototype
      then Some inheritedValue
      else None
  end.

Definition getAuthorData (authorHandle locale : string) : result Person.t :=
  match authorsData_get authorHandle with
  | None => Throw ("Invalid author: " +:+ authorHandle)
  | Some authorData =>
      Ok {| Person.image := default defaultAvatarImg (AuthorData.image authorData);
            Person.title :=
              i18n ("i18n.authors." +:+ authorHandle +:+ ".title") (Some locale);
            Person.twitter := AuthorData.twitter authorData;
            Person.linkedin := AuthorData.linkedin authorData;
            Person.handle := authorHandle |}
  end.

(** In the branch of a session of type ['speaker'], the [alt] of the image
    is [payload.speaker.title ?? payload.title]: the title of the speaker,
    which [i18n] always provides.  In the other branch the two conditional
    expressions on [payload.participants.length === 1] are the matches on a
    list of one element, [participants[0]] being that element. *)
Definition processSession (session : RawSession.t) (locale : string)
  : result Session.t :=
  if String.eqb (RawSession.type session) "speaker" then
    do speaker <- getAuthorData (RawSession.speaker session) locale;
    Ok {| Session.title := RawSession.title session;
          Session.description := RawSession.description session;
          Session.type := RawSession.type session;
          Session.topics := RawSession.topics session;
          Session.slidesUrl := RawSession.slidesUrl session;
          Session.videoUrl := RawSession.videoUrl session;
          Session.who := Speaker speaker;
          Session.image :=
            Img {| ImgArgs.src := Person.image speaker;
                   ImgArgs.width := 40;
                   ImgArgs.height := 40;
                   ImgArgs.alt := Person.title speaker;
                   ImgArgs.class := Some avatar_class |} |}
  else
    do participants <-
      mapM (fun p => getAuthorData p locale) (RawSession.participants session);
    let title :=
      match participants with
      | [p] => Person.title p
      | _ => i18n "i18n.events.multiple_participants" None
      end in
    Ok {| Session.title := title;
          Session.description := RawSession.description session;
          Session.type := RawSession.type session;
          Session.topics := RawSession.topics session;
          Session.slidesUrl := RawSession.slidesUrl session;
          Session.videoUrl := RawSession.videoUrl session;
          Session.who := Participants participants;
          Session.image :=
            Img {| ImgArgs.src :=
                     match participants with
                     | [p] => Person.image p
                     | _ => chromeImg
                     end;
                   ImgArgs.width := 40;
                   ImgArgs.height := 40;
                   ImgArgs.alt := title;
                   ImgArgs.class := Some avatar_class |} |}.

(** The callback of [payload.map] in [getEvents]. *)
Definition eventItem (locale : string) (event : CollectionItem.t)
  : result Event.t :=
  let d := CollectionItem.data event in
  do sessions <-
    mapM (fun session => processSession session locale) (EventData.sessions d);
  let image :=
    Img {| ImgArgs.src := default EVENT_PLACEHOLDER (EventData.image d);
           ImgArgs.width := 400;
           ImgArgs.height := 400;
           ImgArgs.alt := EventData.title d;
           ImgArgs.class := None |} in
  Ok {| Event.id := EventData.id d;
        Event.title := EventData.title d;
        Event.externalUrl := EventData.externalUrl d;
        Event.summary := EventData.summary d;
        Event.location := EventData.location d;
        Event.date := EventData.date d;
        Event.isPastEvent := isPastEvent event;
        Event.sessions := sessions;
        Event.image := image |}.

Definition events_glob (locale : string) : string :=
  "./site/" +:+ locale +:+ "/meet-the-team/events/**/*.md".

(** [getEvents({collections, filter, sort, locale = 'en'})]; a [null] or
    missing [filter] or [sort] is [None], and so is a missing [locale], for
    which the default ['en'] stands in. *)
Definition getEvents (collections : EleventyCollectionObject)
    (filter : option (CollectionItem.t -> bool))
    (sort : option (Event.t -> Event.t -> Z))
    (locale : option string) : result (list Event.t) :=
  let locale := default "en" locale in
  let payload := getFilteredByGlob collections (events_glob locale) in
  let payload :=
    match filter with
    | Some f => List.filter f payload
    | None => payload
    end in
  do payload <- mapM (eventItem locale) payload;
  match sort with
  | Some cmp => Ok (Array_sort cmp payload)
  | None => Ok payload
  end.

Definition pastEvents (collections : EleventyCollectionObject)
  : result (list Event.t) :=
  getEvents collections (Some (fun event => isPastEvent event))
    (Some sortDesc) None.

Definition currentEvents (collections : EleventyCollectionObject)
  : result (list Event.t) :=
  getEvents collections (Some (fun event => negb (isPastEvent event)))
    (Some sortAsc) None.

(** The [{handle, title}] pairs of one session, as built by the callback
    of [flatMap] in [uniqueSpeakers]. *)
Definition speakerTags (s : Session.t) : list SpeakerTag.t :=
  match Session.who s with
  | Speaker sp =>
      [ {| SpeakerTag.handle := Person.handle sp;
           SpeakerTag.title := Person.title sp |} ]
  | Participants ps =>
      List.map (fun p => {| SpeakerTag.handle := Person.handle p;
                            SpeakerTag.title := Person.title p |}) ps
  end.

Definition rawSpeakers (events : list Event.t) : list SpeakerTag.t :=
  concat (List.map (fun e => flat_map speakerTags (Event.sessions e)) events).

Definition uniqueSpeakers (events : list Event.t) : list SpeakerTag.t :=
  let rawSpeakers := rawSpeakers events in
  Array_sort
    (fun a b => localeCompare (SpeakerTag.title a) (SpeakerTag.title b))
    (Array_filter_index
       (fun s i =>
          findIndex
            (fun first => String.eqb (SpeakerTag.handle s) (SpeakerTag.handle first))
            rawSpeakers =? i)
       rawSpeakers).

Definition allTopics (events : list Event.t) : list string :=
  concat (List.map (fun e => flat_map Session.topics (Event.sessions e)) events).

Definition uniqueTopics (events : list Event.t) : list string :=
  Array_sort localeCompare (Set_spread (allTopics events)).

Definition uniqueLocations (events : list Event.t) : list string :=
  let locations := List.map Event.location events in
  Array_sort localeCompare (Set_spread locations).

Definition eventTags (collections : EleventyCollectionObject)
  : result Tags.t :=
  do events <- getEvents collections None None None;
  Ok {| Tags.locations := uniqueLocations events;
        Tags.speakers := uniqueSpeakers events;
        Tags.topics := uniqueTopics events |}.

End Collections.

(** ** Notions the properties are stated with *)

(** A consistent comparator in the sense of ECMAScript: [cmp a b > 0] exactly
    when [cmp b a < 0], and "not after" is transitive. *)
Record ConsistentComparator {A : Type} (cmp : A -> A -> Z) : Prop := {
  cmp_flip : forall a b, 0 < cmp a b <-> cmp b a < 0;
  cmp_trans : forall a b c, cmp a b <= 0 -> cmp b c <= 0 -> cmp a c <= 0;
}.

(** Modelled from the spec: the comparators [sortAsc] and [sortDesc] of
    [_js/utils/events], a module that is not among the sources.  The spec
    calls them "ascending by date" and "descending by date" over two view
    models: the sign of the comparator is the order of the two dates. *)
Definition ascendingByDate (cmp : Event.t -> Event.t -> Z) : Prop :=
  forall a b,
    (cmp a b < 0 <-> Event.date a < Event.date b) /\
    (0 < cmp a b <-> Event.date b < Event.date a).

Definition descendingByDate (cmp : Event.t -> Event.t -> Z) : Prop :=
  forall a b,
    (cmp a b < 0 <-> Event.date b < Event.date a) /\
    (0 < cmp a b <-> Event.date a < Event.date b).

(** The handles a raw session refers to: the ones [processSession] resolves. *)
Definition sessionHandles (session : RawSession.t) : list string :=
  if String.eqb (RawSession.type session) "speaker"
  then [RawSession.speaker session]
  else RawSession.participants session.

Definition eventHandles (event : CollectionItem.t) : list string :=
  flat_map sessionHandles (EventData.sessions (CollectionItem.data event)).

Definition rawId (event : CollectionItem.t) : Z :=
  EventData.id (CollectionItem.data event).

Definition rawDate (event : CollectionItem.t) : Z :=
  EventData.date (CollectionItem.data event).

(** The message of the error of [getAuthorData]. *)
Definition invalidAuthor (authorHandle : string) : string :=
  "Invalid author: " +:+ authorHandle.

(** The raw events [getEvents] normalizes: the ones of the locale's glob
    that pass the filter. *)
Definition retained (collections : EleventyCollectionObject)
    (filter : option (CollectionItem.t -> bool)) (locale : option string)
  : list CollectionItem.t :=
  let payload := getFilteredByGlob collections (events_glob (default "en" locale)) in
  match filter with
  | Some f => List.filter f payload
  | None => payload
  end.

(** [f] resolves the handles [refs x] of its argument and does nothing else
    that can fail: it returns when all of them are known, and otherwise
    throws the error of [getAuthorData] for one of the unknown ones. *)
Definition resolves {A B : Type} (known : string -> Prop)
    (refs : A -> list string) (f : A -> result B) : Prop :=
  forall x,
    match f x with
    | Ok _ => Forall known (refs x)
    | Throw m => exists h, h ∈ refs x /\ ~ known h /\ m = invalidAuthor h
    end.

(** A handle of the author directory. *)
Definition knownAuthor `{Externals} (authorHandle : string) : Prop :=
  is_Some (authorsData !! authorHandle).

(** A handle that passes the test of [getAuthorData]: [authorsData[h]] is
    not [undefined]. *)
Definition resolvable `{Externals} (authorHandle : string) : Prop :=
  is_Some (authorsData_get authorHandle).

(** A handle that is neither in the directory nor the name of an inherited
    property. *)
Definition unknownAuthor `{Externals} (authorHandle : string) : Prop :=
  authorsData !! authorHandle = None /\ authorHandle ∉ Object_prototype.

(** The two outcomes of a call that looks up [handles]: the error of
    [getAuthorData] for one of them that does not pass its test when there
    is one, a value otherwise. *)
Definition lookupOutcome `{Externals} {A : Type} (r : result A)
    (handles : list string) : Prop :=
  (Exists (fun h => ~ resolvable h) handles ->
     exists h, h ∈ handles /\ ~ resolvable h /\ r = Throw (invalidAuthor h)) /\
  (Forall resolvable handles -> exists a, r = Ok a).

(** A call fails on the unknown handles among [handles]: it throws the
    error of [getAuthorData] for such a handle when there is one, and it
    throws no such error when all of [handles] are in the directory. *)
Definition failsOnUnknown `{Externals} {A : Type} (r : result A)
    (handles : list string) : Prop :=
  (Exists unknownAuthor handles ->
     exists h, h ∈ handles /\ unknownAuthor h /\ r = Throw (invalidAuthor h)) /\
  (Forall knownAuthor handles -> forall h, r <> Throw (invalidAuthor h)).

(** What [processSession] builds for a session that is not of type
    ['speaker'] out of the resolved participants. *)
Definition panelImage `{Externals} (src alt : string) : string :=
  Img {| ImgArgs.src := src;
         ImgArgs.width := 40;
         ImgArgs.height := 40;
         ImgArgs.alt := alt;
         ImgArgs.class := Some avatar_class |}.

Definition multipleParticipants `{Externals} : string :=
  i18n "i18n.events.multiple_participants" None.

(** The identifiers and the dates of a list of normalized events. *)
Definition ids (events : list Event.t) : list Z := List.map Event.id events.

Definition dates (events : list Event.t) : list Z := List.map Event.date events.

(** The three facets of a list of normalized events, the object that
    [eventTags] returns. *)
Definition facets `{Externals} (events : list Event.t) : Tags.t :=
  {| Tags.locations := uniqueLocations events;
     Tags.speakers := uniqueSpeakers events;
     Tags.topics := uniqueTopics events |}.

(** A list in ascending order for a comparator: no element comes after a
    later one. *)
Definition ascending {A : Type} (cmp : A -> A -> Z) (l : list A) : Prop :=
  StronglySorted (fun a b => cmp a b <= 0) l.

(** [facet] holds every value of [values] exactly once, and nothing else. *)
Definition eachOnce {A : Type} (facet values : list A) : Prop :=
  NoDup facet /\ forall x, x ∈ facet <-> x ∈ values.

(** The elements of [l] whose key is neither in [seen] nor carried by an
    earlier element of [l]: the first occurrence of every key. *)
Fixpoint firsts {A : Type} (key : A -> string) (seen : list string) (l : list A)
  : list A :=
  match l with
  | [] => []
  | x :: l' =>
      if existsb (String.eqb (key x)) seen then firsts key seen l'
      else x :: firsts key (key x :: seen) l'
  end.

Definition hasHandle (h : string) (s : SpeakerTag.t) : bool :=
  String.eqb (SpeakerTag.handle s) h.

(** The test of [getAuthorData], "[authorsData[h]] is not [undefined]", as
    a boolean, and the first handle of a list that fails it. *)
Definition hasProperty `{Externals} (authorHandle : string) : bool :=
  match authorsData_get authorHandle with
  | Some _ => true
  | None => false
  end.

Definition firstUndefined `{Externals} (handles : list string) : option string :=
  List.find (fun h => negb (hasProperty h)) handles.

(** [f] resolves the handles [refs x] from left to right: it throws the
    error of the first one that fails the test, and returns when there is
    none. *)
Definition resolvesInOrder `{Externals} {A B : Type}
    (refs : A -> list string) (f : A -> result B) : Prop :=
  forall x,
    match firstUndefined (refs x) with
    | Some h => f x = Throw (invalidAuthor h)
    | None => exists y, f x = Ok y
    end.

(** The normalized event [e] carries the fields of the raw event [event]:
    what the object literal of [getEvents] copies, the flag and the image. *)
Definition copiedFrom `{Externals} (event : CollectionItem.t) (e : Event.t)
  : Prop :=
  let d := CollectionItem.data event in
  Event.id e = EventData.id d /\
  Event.title e = EventData.title d /\
  Event.externalUrl e = EventData.externalUrl d /\
  Event.summary e = EventData.summary d /\
  Event.location e = EventData.location d /\
  Event.date e = EventData.date d /\
  Event.isPastEvent e = isPastEvent event /\
  Event.image e =
    Img {| ImgArgs.src := default EVENT_PLACEHOLDER (EventData.image d);
           ImgArgs.width := 400;
           ImgArgs.height := 400;
           ImgArgs.alt := EventData.title d;
           ImgArgs.class := None |}.

(** The topics and the locations of raw events, in the order of the store. *)
Definition rawTopics (events : list CollectionItem.t) : list string :=
  flat_map
    (fun event =>
       flat_map RawSession.topics (EventData.sessions (CollectionItem.data event)))
    events.

Definition rawLocations (events : list CollectionItem.t) : list string :=
  List.map (fun event => EventData.location (CollectionItem.data event)) events.

Definition onDate (d : Z) (e : Event.t) : bool := Event.date e =? d.

(** The key of the title of an author in the localization data. *)
Definition authorTitleKey (authorHandle : string) : string :=
  "i18n.authors." +:+ authorHandle +:+ ".title".

(** The session that [processSession] builds for a session of type
    ['speaker'] when the lookup of its speaker gives [authorData]. *)
Definition speakerView `{Externals} (session : RawSession.t) (locale : string)
    (authorData : AuthorData.t) : Session.t :=
  let image := default defaultAvatarImg (AuthorData.image authorData) in
  let title := i18n (authorTitleKey (RawSession.speaker session)) (Some locale) in
  {| Session.title := RawSession.title session;
     Session.description := RawSession.description session;
     Session.type := RawSession.type session;
     Session.topics := RawSession.topics session;
     Session.slidesUrl := RawSession.slidesUrl session;
     Session.videoUrl := RawSession.videoUrl session;
     Session.who :=
       Speaker {| Person.image := image;
                  Person.title := title;
                  Person.twitter := AuthorData.twitter authorData;
                  Person.linkedin := AuthorData.linkedin authorData;
                  Person.handle := RawSession.speaker session |};
     Session.image := panelImage image title |}.

(** A pair of the speakers facet as [getAuthorData] makes it: its handle
    passes the test, and its title is the localized title of that handle. *)
Definition resolvedPair `{Externals} (locale : string) (s : SpeakerTag.t)
  : Prop :=
  resolvable (SpeakerTag.handle s) /\
  SpeakerTag.title s =
    i18n (authorTitleKey (SpeakerTag.handle s)) (Some locale).


(** ** A sample site

    The scenario of the specification: Alice speaks at a past event, Bob and
    Carol sit on the panel of a coming one; the evaluation instant is
    2023-01-01. *)
Module Sample.

Definition now : Z := 1672531200000.

Definition signOf (c : comparison) : Z :=
  match c with
  | Lt => -1
  | Eq => 0
  | Gt => 1
  end.

Definition externals : Externals := {|
  authorsData :=
    <["alice" := {| AuthorData.image := Some "image/alice.jpg";
                    AuthorData.twitter := Some "alice";
                    AuthorData.linkedin := None |}]>
    (<["bob" := {| AuthorData.image := None;
                   AuthorData.twitter := None;
                   AuthorData.linkedin := Some "bob" |}]>
    (<["carol" := {| AuthorData.image := Some "image/carol.jpg";
                     AuthorData.twitter := None;
                     AuthorData.linkedin := None |}]> ∅));
  i18n := fun key locale => key +:+ "@" +:+ default "en" locale;
  Img := fun a => ImgArgs.src a +:+ "#" +:+ ImgArgs.alt a;
  defaultAvatarImg := "image/default-avatar.png";
  chromeImg := "image/chrome.png";
  isPastEvent := fun event => rawDate event <=? now;
  sortAsc := fun a b => signOf (Event.date a ?= Event.date b);
  sortDesc := fun a b => signOf (Event.date b ?= Event.date a);
  localeCompare := fun a b => signOf (String_as_OT.compare a b);
|}.

Definition session (type speaker : string) (participants : list string)
    (topics : list string) : RawSession.t :=
  {| RawSession.title := "Session";
     RawSession.description := "About the web";
     RawSession.type := type;
     RawSession.topics := topics;
     RawSession.slidesUrl := None;
     RawSession.videoUrl := None;
     RawSession.speaker := speaker;
     RawSession.participants := participants |}.

Definition event (id date : Z) (location : string)
    (sessions : list RawSession.t) : CollectionItem.t :=
  {| CollectionItem.data :=
       {| EventData.id := id;
          EventData.title := "Event";
          EventData.externalUrl := None;
          EventData.summary := "Summary";
          EventData.location := location;
          EventData.date := date;
          EventData.image := None;
          EventData.sessions := sessions |} |}.

Definition talk : RawSession.t := session "speaker" "alice" [] ["css"; "devtools"].
Definition panel : RawSession.t := session "panel" "" ["bob"; "carol"] ["css"].
Definition solo : RawSession.t := session "panel" "" ["bob"] ["pwa"].
Definition empty_panel : RawSession.t := session "panel" "" [] [].
Definition ghost_talk : RawSession.t := session "speaker" "ghost" [] [].

Definition event1 : CollectionItem.t := event 1 1577836800000 "Berlin" [talk].
Definition event2 : CollectionItem.t := event 2 4070908800000 "Online" [panel; solo].
Definition event3 : CollectionItem.t := event 3 1577836800000 "Berlin" [talk].

(** A coming event that carries the identifier of [event1]. *)
Definition event1_again : CollectionItem.t :=
  event 1 4070908800000 "Online" [panel].

(** A coming event whose speaker is not in the directory. *)
Definition ghost_event : CollectionItem.t :=
  event 4 4070908800000 "Online" [ghost_talk].

(** A store that serves [events] for the English glob and nothing else. *)
Definition store (events : list CollectionItem.t) : EleventyCollectionObject :=
  {| getFilteredByGlob := fun glob =>
       if String.eqb glob "./site/en/meet-the-team/events/**/*.md"
       then events else [] |}.

(** The stores of the examples. *)
Definition site : EleventyCollectionObject := store [event1; event2; event3].

Definition site_of_three_dates : EleventyCollectionObject :=
  store [event1; event2; event 5 1600000000000 "Paris" []].

Definition site_of_one_date : EleventyCollectionObject := store [event1; event3].

Definition site_of_one_id : EleventyCollectionObject :=
  store [event1; event1_again].

Definition site_with_ghost : EleventyCollectionObject :=
  store [event1; ghost_event].

(** The sample site with a French event next to the English ones. *)
Definition site_with_french : EleventyCollectionObject :=
  {| getFilteredByGlob := fun glob =>
       if String.eqb glob "./site/en/meet-the-team/events/**/*.md"
       then [event1; event2; event3]
       else if String.eqb glob "./site/fr/meet-the-team/events/**/*.md"
       then [event1_again]
       else [] |}.

(** A store that serves [events] for the French glob only. *)
Definition storeFr (events : list CollectionItem.t) : EleventyCollectionObject :=
  {| getFilteredByGlob := fun glob =>
       if String.eqb glob "./site/fr/meet-the-team/events/**/*.md"
       then events else [] |}.

Definition person (handle title : string) : Person.t :=
  {| Person.image := "image/" +:+ handle;
     Person.title := title;
     Person.twitter := None;
     Person.linkedin := None;
     Person.handle := handle |}.

(** Normalized events in which the handle [bob] carries two titles. *)
Definition viewSession (who : people) : Session.t :=
  {| Session.title := "Session";
     Session.description := "";
     Session.type := "";
     Session.topics := ["css"; "pwa"; "css"];
     Session.slidesUrl := None;
     Session.videoUrl := None;
     Session.who := who;
     Session.image := "" |}.

Definition viewEvent (location : string) (sessions : list Session.t) : Event.t :=
  {| Event.id := 0;
     Event.title := "Event";
     Event.externalUrl := None;
     Event.summary := "";
     Event.location := location;
     Event.date := 0;
     Event.isPastEvent := true;
     Event.sessions := sessions;
     Event.image := "" |}.

Definition twoTitles : list Event.t :=
  [ viewEvent "Berlin"
      [ viewSession (Speaker (person "bob" "Robert"));
        viewSession (Participants [person "alice" "Alice"; person "bob" "Bob"]) ];
    viewEvent "Berlin" [ viewSession (Speaker (person "bob" "Bobby")) ] ].

(** A coming event with a panel of which two participants are unknown. *)
Definition site_with_two_ghosts : EleventyCollectionObject :=
  store [event1; event 6 4070908800000 "Online"
                   [session "panel" "" ["bob"; "ghost"; "phantom"] []]].

(** A talk of Alice that also lists a participant nobody knows. *)
Definition talk_with_stranger : RawSession.t :=
  session "speaker" "alice" ["ghost"] ["css"].

(** A talk whose speaker is the name of an inherited property, and a panel
    that lists such a name before an unknown handle. *)
Definition talk_of_toString : RawSession.t :=
  session "speaker" "toString" [] ["css"].

Definition site_of_toString : EleventyCollectionObject :=
  store [event1; event 10 4070908800000 "Online" [talk_of_toString]].

Definition site_with_inherited_name : EleventyCollectionObject :=
  store [event1; event 11 4070908800000 "Online"
                   [session "panel" "" ["toString"; "ghost"] []]].

(** Three past events, the first and the last on the same day. *)
Definition site_of_a_shared_day : EleventyCollectionObject :=
  store [event 7 1577836800000 "Berlin" [];
         event 8 1600000000000 "Paris" [];
         event 9 1577836800000 "Lagos" []].

End Sample.

(** * Properties *)

(** ** The error monad and [mapM] *)

Section MapM.
Context {A B : Type}.
Implicit Types (f : A -> result B) (l : list A).

Lemma mapM_cons f x l :
  mapM f (x :: l) =
  match f x with
  | Ok y => match mapM f l with Ok ys => Ok (y :: ys) | Throw m => Throw m end
  | Throw m => Throw m
  end.
Proof. reflexivity. Qed.

(** A successful [map] is the element-wise image, in the same order. *)
Lemma mapM_Ok_Forall2 f l ys :
  mapM f l = Ok ys <-> Forall2 (fun x y => f x = Ok y) l ys.
Proof.
  revert ys. induction l as [|x l IH]; intros ys.
  - simpl. split.
    + intros [= <-]. constructor.
    + intros H. inversion H. reflexivity.
  - rewrite mapM_cons. split.
    + destruct (f x) as [y|m] eqn:Hx; [|discriminate].
      destruct (mapM f l) as [ys'|m] eqn:Hl; [|discriminate].
      intros [= <-]. constructor; [exact Hx|]. by apply IH.
    + intros H. inversion H as [|? y ? ys' Hx Hl]; subst.
      rewrite Hx. apply IH in Hl. by rewrite Hl.
Qed.

Lemma mapM_all_Ok f l :
  Forall (fun x => exists y, f x = Ok y) l -> exists ys, mapM f l = Ok ys.
Proof.
  induction 1 as [|x l [y Hx] _ [ys Hl]].
  - by exists [].
  - exists (y :: ys). by rewrite mapM_cons, Hx, Hl.
Qed.

(** Filtering the arguments filters the results, when the two predicates
    agree across [f]. *)
Lemma mapM_filter f (p : A -> bool) (q : B -> bool) l ys :
  (forall x y, f x = Ok y -> q y = p x) ->
  mapM f l = Ok ys ->
  mapM f (List.filter p l) = Ok (List.filter q ys).
Proof.
  intros Hpq. revert ys. induction l as [|x l IH]; intros ys.
  - intros [= <-]. reflexivity.
  - rewrite mapM_cons.
    destruct (f x) as [y|m] eqn:Hx; [|discriminate].
    destruct (mapM f l) as [ys'|m] eqn:Hl; [|discriminate].
    intros [= <-]. simpl. rewrite (Hpq _ _ Hx).
    destruct (p x).
    + by rewrite mapM_cons, Hx, (IH ys').
    + by apply IH.
Qed.

(** [map] over callbacks that resolve handles resolves all the handles. *)
Lemma mapM_resolves known (refs : A -> list string) f :
  resolves known refs f -> resolves known (flat_map refs) (mapM f).
Proof.
  intros Hf l. induction l as [|x l IH].
  - simpl. constructor.
  - rewrite mapM_cons. simpl flat_map. specialize (Hf x).
    destruct (f x) as [y|m].
    + destruct (mapM f l) as [ys|m].
      * by apply Forall_app.
      * destruct IH as (h & Hin & Hh & ->).
        exists h. split; [|done]. apply elem_of_app. by right.
    + destruct Hf as (h & Hin & Hh & ->).
      exists h. split; [|done]. apply elem_of_app. by left.
Qed.

End MapM.

(** ** [Array.prototype.sort] *)

Section Sort.
Context {A : Type} (cmp : A -> A -> Z).

Lemma sort_insert_perm x l : sort_insert cmp x l ≡ₚ x :: l.
Proof.
  induction l as [|y l IH]; simpl; [done|].
  destruct (0 <? cmp x y); [|done].
  rewrite IH. apply Permutation_swap.
Qed.

(** Sorting rearranges: nothing is lost, added or duplicated, whatever the
    comparator. *)
Lemma Array_sort_perm l : Array_sort cmp l ≡ₚ l.
Proof.
  induction l as [|x l IH]; simpl; [done|].
  by rewrite sort_insert_perm, IH.
Qed.

Context (R : A -> A -> Prop).
Hypothesis R_after : forall a b, 0 < cmp a b -> R b a.
Hypothesis R_before : forall a b, ~ 0 < cmp a b -> R a b.
Hypothesis R_trans : forall a b c, R a b -> R b c -> R a c.

Lemma sort_insert_sorted x l :
  StronglySorted R l -> StronglySorted R (sort_insert cmp x l).
Proof.
  induction 1 as [|y l Hl IH Hy]; simpl.
  - repeat constructor.
  - destruct (Z.ltb_spec 0 (cmp x y)) as [Hxy|Hxy].
    + constructor; [exact IH|].
      rewrite sort_insert_perm. constructor; [by apply R_after | exact Hy].
    + assert (R x y) as Rxy by (apply R_before; lia).
      constructor; [by constructor|].
      constructor; [exact Rxy|].
      eapply Forall_impl; [exact Hy|]. intros z Hz. by eapply R_trans.
Qed.

Lemma Array_sort_sorted l : StronglySorted R (Array_sort cmp l).
Proof.
  induction l as [|x l IH]; simpl; [constructor|].
  by apply sort_insert_sorted.
Qed.

End Sort.

(** ** Keeping first occurrences *)

Lemma existsb_eqb_elem (k : string) (seen : list string) :
  existsb (String.eqb k) seen = true <-> k ∈ seen.
Proof.
  rewrite existsb_exists. split.
  - intros (k' & Hin & Heq). apply String.eqb_eq in Heq as ->.
    by apply list_elem_of_In.
  - intros Hin. exists k. split; [by apply list_elem_of_In | apply String.eqb_refl].
Qed.

Section Firsts.
Context {A : Type} (key : A -> string).
Implicit Types (seen : list string) (l : list A) (k : string).

Lemma firsts_cons seen x l :
  firsts key seen (x :: l) =
  if existsb (String.eqb (key x)) seen then firsts key seen l
  else x :: firsts key (key x :: seen) l.
Proof. reflexivity. Qed.

(** Only the membership in [seen] matters. *)
Lemma firsts_seen seen seen' l :
  (forall k, k ∈ seen <-> k ∈ seen') -> firsts key seen l = firsts key seen' l.
Proof.
  revert seen seen'. induction l as [|x l IH]; intros seen seen' Hs; [done|].
  rewrite !firsts_cons.
  assert (existsb (String.eqb (key x)) seen = existsb (String.eqb (key x)) seen')
    as ->.
  { apply eq_true_iff_eq. rewrite !existsb_eqb_elem. apply Hs. }
  destruct (existsb _ seen'); [by apply IH|].
  f_equal. apply IH. intros k. rewrite !elem_of_cons. by rewrite Hs.
Qed.

Lemma firsts_keys seen l k :
  k ∈ List.map key (firsts key seen l) <-> k ∈ List.map key l /\ k ∉ seen.
Proof.
  revert seen. induction l as [|x l IH]; intros seen.
  - simpl. rewrite elem_of_nil. tauto.
  - rewrite firsts_cons.
    destruct (existsb (String.eqb (key x)) seen) eqn:Hx.
    + apply existsb_eqb_elem in Hx. rewrite IH. simpl. rewrite elem_of_cons.
      split; [tauto|]. intros [[->|Hk] Hn]; [done | tauto].
    + assert (key x ∉ seen) as Hn.
      { intros Hin. apply existsb_eqb_elem in Hin. congruence. }
      simpl. rewrite !elem_of_cons, IH, elem_of_cons.
      split.
      * intros [->|(Hk & Hnk)]; [tauto|]. split; [tauto|]. tauto.
      * intros [[->|Hk] Hnk]; [tauto|].
        destruct (decide (k = key x)) as [->|Hne]; [tauto|]. right. tauto.
Qed.

(** Every key is kept once. *)
Lemma firsts_NoDup seen l : NoDup (List.map key (firsts key seen l)).
Proof.
  revert seen. induction l as [|x l IH]; intros seen; [constructor|].
  rewrite firsts_cons. destruct (existsb _ seen); [apply IH|].
  simpl. constructor; [|apply IH].
  rewrite firsts_keys, elem_of_cons. tauto.
Qed.

Lemma firsts_filter_seen seen l k :
  k ∈ seen ->
  List.filter (fun x => String.eqb (key x) k) (firsts key seen l) = [].
Proof.
  intros Hk. revert seen Hk. induction l as [|x l IH]; intros seen Hk; [done|].
  rewrite firsts_cons.
  destruct (existsb (String.eqb (key x)) seen) eqn:Hx; [by apply IH|].
  simpl. destruct (String.eqb_spec (key x) k) as [<-|Hne].
  - apply existsb_eqb_elem in Hk. congruence.
  - apply IH. apply elem_of_cons. by right.
Qed.

(** The element kept for a key is the first one of [l] that carries it. *)
Lemma firsts_filter seen l k :
  k ∉ seen ->
  List.filter (fun x => String.eqb (key x) k) (firsts key seen l) =
  option_list (List.find (fun x => String.eqb (key x) k) l).
Proof.
  revert seen. induction l as [|x l IH]; intros seen Hk; [done|].
  rewrite firsts_cons. simpl List.find.
  destruct (existsb (String.eqb (key x)) seen) eqn:Hx.
  - apply existsb_eqb_elem in Hx.
    destruct (String.eqb_spec (key x) k) as [<-|Hne]; [done|]. by apply IH.
  - simpl. destruct (String.eqb_spec (key x) k) as [<-|Hne].
    + simpl. f_equal. apply firsts_filter_seen. apply elem_of_cons. by left.
    + apply IH. rewrite elem_of_cons. intros [->|Hin]; [done | by apply Hk].
Qed.

(** [findIndex] returns the position of [x] exactly when nothing before
    [x] satisfies the predicate. *)
Lemma findIndex_from_here (q : A -> bool) pre x suf i :
  q x = true ->
  (findIndex_from q (pre ++ x :: suf) i =? i + Z.of_nat (length pre)) =
  negb (existsb q pre).
Proof.
  intros Hx. revert i. induction pre as [|y pre IH]; intros i; simpl.
  - rewrite Hx. apply Z.eqb_eq. lia.
  - destruct (q y); simpl.
    + apply Z.eqb_neq. lia.
    + rewrite <- IH with (i := i + 1). f_equal. lia.
Qed.

(** The filter of [uniqueSpeakers], "the first index of my key is my own
    index", keeps the first occurrence of every key. *)
Lemma filter_from_firsts (full pre suf : list A) :
  full = pre ++ suf ->
  filter_from
    (fun s i => findIndex (fun first => String.eqb (key s) (key first)) full =? i)
    suf (Z.of_nat (length pre)) =
  firsts key (List.map key pre) suf.
Proof.
  revert pre. induction suf as [|x suf IH]; intros pre Hfull; [done|].
  simpl filter_from. rewrite firsts_cons.
  unfold findIndex at 1. rewrite Hfull at 1.
  replace (Z.of_nat (length pre)) with (0 + Z.of_nat (length pre)) at 1 by lia.
  rewrite findIndex_from_here by apply String.eqb_refl.
  assert (existsb (fun first => String.eqb (key x) (key first)) pre =
          existsb (String.eqb (key x)) (List.map key pre)) as ->.
  { clear. induction pre as [|y pre IH]; simpl; [done | by rewrite IH]. }
  replace (Z.of_nat (length pre) + 1) with (Z.of_nat (length (pre ++ [x])))
    by (rewrite length_app; simpl; lia).
  rewrite (IH (pre ++ [x])) by (by rewrite <- app_assoc).
  destruct (existsb (String.eqb (key x)) (List.map key pre)) eqn:Hx; simpl.
  - apply firsts_seen. intros k. rewrite map_app. simpl.
    rewrite elem_of_app, list_elem_of_singleton.
    apply existsb_eqb_elem in Hx. split; [|tauto]. intros [?| ->]; done.
  - f_equal. apply firsts_seen. intros k. rewrite map_app. simpl.
    rewrite elem_of_app, list_elem_of_singleton, elem_of_cons. tauto.
Qed.

Lemma Array_filter_index_firsts (l : list A) :
  Array_filter_index
    (fun s i => findIndex (fun first => String.eqb (key s) (key first)) l =? i) l =
  firsts key [] l.
Proof. apply (filter_from_firsts l [] l). reflexivity. Qed.

End Firsts.

Lemma Set_add_all_firsts (seen l : list string) :
  Set_add_all seen l = firsts (fun x => x) seen l.
Proof.
  revert seen. induction l as [|x l IH]; intros seen; [done|].
  simpl. by rewrite !IH.
Qed.

(** ** Resolution of authors *)

Section Authors.
Context {X : Externals}.

Lemma knownAuthor_resolvable h : knownAuthor h -> resolvable h.
Proof.
  unfold knownAuthor, resolvable, authorsData_get. intros [a ->]. eauto.
Qed.

Lemma resolvable_iff h :
  resolvable h <-> knownAuthor h \/ h ∈ Object_prototype.
Proof.
  unfold resolvable, knownAuthor, authorsData_get.
  destruct (authorsData !! h) as [a|].
  - split; eauto.
  - destruct (existsb (String.eqb h) Object_prototype) eqn:Hp.
    + apply existsb_eqb_elem in Hp. split; eauto.
    + split; [by intros [? ?]|]. intros [[? ?]|Hin]; [done|].
      apply existsb_eqb_elem in Hin. congruence.
Qed.

Lemma unknownAuthor_resolvable h : unknownAuthor h <-> ~ resolvable h.
Proof.
  unfold unknownAuthor, resolvable, authorsData_get.
  destruct (authorsData !! h) as [a|].
  - split; [by intros [? _] | intros Hn; destruct Hn; eauto].
  - destruct (existsb (String.eqb h) Object_prototype) eqn:Hp.
    + apply existsb_eqb_elem in Hp. split; [tauto|]. intros Hn. destruct Hn. eauto.
    + split; [intros _ [? ?]; discriminate|]. intros _. split; [done|].
      intros Hin. apply existsb_eqb_elem in Hin. congruence.
Qed.

(** The error a call that looks up [handles] throws is the error of an
    unknown handle, and none is thrown when all of them are known. *)
Lemma lookupOutcome_unknown {A : Type} (r : result A) handles :
  lookupOutcome r handles -> failsOnUnknown r handles.
Proof.
  intros [Hthrow Hok]. split.
  - intros Hex. destruct Hthrow as (h & Hin & Hh & Hr).
    + eapply Exists_impl; [exact Hex|]. intros h. apply unknownAuthor_resolvable.
    + exists h. split; [done|]. split; [|done]. by apply unknownAuthor_resolvable.
  - intros Hall h. destruct Hok as [a ->]; [|discriminate].
    eapply Forall_impl; [exact Hall|]. apply knownAuthor_resolvable.
Qed.

Lemma resolves_outcome {A B : Type} (refs : A -> list string)
    (f : A -> result B) (x : A) :
  resolves resolvable refs f -> lookupOutcome (f x) (refs x).
Proof.
  intros Hf. specialize (Hf x). split.
  - intros Hex. destruct (f x) as [y|m].
    + apply Exists_exists in Hex as (h & Hin & Hh).
      rewrite Forall_forall in Hf. destruct Hh. by apply Hf.
    + destruct Hf as (h & Hin & Hh & ->). by exists h.
  - intros Hall. destruct (f x) as [y|m]; [by exists y|].
    destruct Hf as (h & Hin & Hh & _).
    rewrite Forall_forall in Hall. destruct Hh. by apply Hall.
Qed.

Lemma getAuthorData_resolves locale :
  resolves resolvable (fun h => [h]) (fun h => getAuthorData h locale).
Proof.
  intros h. unfold getAuthorData.
  destruct (authorsData_get h) as [a|] eqn:Hh.
  - constructor; [|constructor]. unfold resolvable. by rewrite Hh.
  - exists h. split; [apply list_elem_of_singleton; done|].
    split; [|done]. unfold resolvable. rewrite Hh. by intros [? ?].
Qed.

Lemma participants_resolves locale :
  resolves resolvable (fun hs => hs) (mapM (fun h => getAuthorData h locale)).
Proof.
  intros hs.
  pose proof (mapM_resolves _ _ _ (getAuthorData_resolves locale) hs) as H.
  replace (flat_map (fun h => [h]) hs) with hs in H; [exact H|].
  clear. induction hs as [|h hs IH]; simpl; [done | by rewrite <- IH].
Qed.

Lemma processSession_resolves locale :
  resolves resolvable sessionHandles (fun s => processSession s locale).
Proof.
  intros s. unfold processSession, sessionHandles.
  destruct (String.eqb (RawSession.type s) "speaker").
  - pose proof (getAuthorData_resolves locale (RawSession.speaker s)) as H.
    simpl in H. by destruct (getAuthorData _ _).
  - pose proof (participants_resolves locale (RawSession.participants s)) as H.
    simpl in H. by destruct (mapM _ _).
Qed.

Lemma eventItem_resolves locale :
  resolves resolvable eventHandles (eventItem locale).
Proof.
  intros e. unfold eventItem, eventHandles.
  pose proof (mapM_resolves _ _ _ (processSession_resolves locale)
                (EventData.sessions (CollectionItem.data e))) as H.
  simpl in H. by destruct (mapM _ _).
Qed.

Lemma getEvents_retained c filter sort locale :
  getEvents c filter sort locale =
  do payload <- mapM (eventItem (default "en" locale)) (retained c filter locale);
  Ok (match sort with Some cmp => Array_sort cmp payload | None => payload end).
Proof.
  unfold getEvents, retained. simpl.
  destruct (mapM _ _); simpl; [|done]. by destruct sort.
Qed.

Lemma getEvents_outcome c filter sort locale :
  lookupOutcome (getEvents c filter sort locale)
    (flat_map eventHandles (retained c filter locale)).
Proof.
  rewrite getEvents_retained.
  pose proof (resolves_outcome _ _ (retained c filter locale)
    (mapM_resolves _ _ _ (eventItem_resolves (default "en" locale)))) as [H1 H2].
  split.
  - intros Hex. destruct (H1 Hex) as (h & Hin & Hh & ->). by exists h.
  - intros Hall. destruct (H2 Hall) as (evs & ->). simpl. eauto.
Qed.

End Authors.

(** ** Lists *)

Lemma elem_of_map {A B : Type} (f : A -> B) (l : list A) (y : B) :
  y ∈ List.map f l <-> exists x, y = f x /\ x ∈ l.
Proof.
  rewrite list_elem_of_In, in_map_iff. split.
  - intros (x & <- & Hx). exists x. by rewrite list_elem_of_In.
  - intros (x & -> & Hx). exists x. by rewrite <- list_elem_of_In.
Qed.

Lemma elem_of_filter {A : Type} (p : A -> bool) (l : list A) (x : A) :
  x ∈ List.filter p l <-> x ∈ l /\ p x = true.
Proof. by rewrite !list_elem_of_In, filter_In. Qed.

Lemma NoDup_map_eq {A B : Type} (f : A -> B) (l : list A) (x y : A) :
  NoDup (List.map f l) -> x ∈ l -> y ∈ l -> f x = f y -> x = y.
Proof.
  induction l as [|z l IH]; simpl; intros Hnd Hx Hy Hf.
  - by apply elem_of_nil in Hx.
  - apply NoDup_cons in Hnd as [Hz Hnd].
    apply elem_of_cons in Hx as [->|Hx]; apply elem_of_cons in Hy as [->|Hy].
    + done.
    + destruct Hz. rewrite Hf. apply elem_of_map. eauto.
    + destruct Hz. rewrite <- Hf. apply elem_of_map. eauto.
    + by apply IH.
Qed.

Lemma Forall2_map_eq {A B C : Type} (f : A -> C) (g : B -> C)
    (l : list A) (k : list B) :
  Forall2 (fun x y => g y = f x) l k -> List.map g k = List.map f l.
Proof. induction 1; simpl; congruence. Qed.

(** A sorted list without two equal keys is strictly sorted. *)
Lemma StronglySorted_strict {A : Type} (key : A -> Z) (R R' : A -> A -> Prop)
    (l : list A) :
  (forall a b, R a b -> key a <> key b -> R' a b) ->
  StronglySorted R l ->
  NoDup (List.map key l) ->
  StronglySorted R' l.
Proof.
  intros HR. induction 1 as [|x l Hl IH Hx]; simpl; intros Hnd; [constructor|].
  apply NoDup_cons in Hnd as [Hnx Hnd].
  constructor; [by apply IH|].
  rewrite Forall_forall in Hx |- *. intros y Hy.
  apply HR; [by apply Hx|].
  intros Heq. apply Hnx. rewrite Heq. apply elem_of_map. eauto.
Qed.

(** ** The past and the coming events *)

Section Views.
Context {X : Externals}.

Lemma eventItem_fields locale raw e :
  eventItem locale raw = Ok e ->
  Event.id e = rawId raw /\
  Event.date e = rawDate raw /\
  Event.isPastEvent e = isPastEvent raw.
Proof.
  unfold eventItem. destruct (mapM _ _); simpl; [|discriminate].
  by intros [= <-].
Qed.

Lemma getEvents_all c all :
  getEvents c None None None = Ok all ->
  mapM (eventItem "en") (getFilteredByGlob c (events_glob "en")) = Ok all.
Proof.
  rewrite getEvents_retained. unfold retained. simpl.
  destruct (mapM _ _); simpl; congruence.
Qed.

Lemma pastEvents_of_all c all :
  getEvents c None None None = Ok all ->
  pastEvents c = Ok (Array_sort sortDesc (List.filter Event.isPastEvent all)).
Proof.
  intros Hall%getEvents_all. unfold pastEvents.
  rewrite getEvents_retained. unfold retained. simpl.
  erewrite mapM_filter; [reflexivity| |exact Hall].
  intros raw e He. by apply eventItem_fields in He as (_ & _ & ->).
Qed.

Lemma currentEvents_of_all c all :
  getEvents c None None None = Ok all ->
  currentEvents c =
  Ok (Array_sort sortAsc (List.filter (fun e => negb (Event.isPastEvent e)) all)).
Proof.
  intros Hall%getEvents_all. unfold currentEvents.
  rewrite getEvents_retained. unfold retained. simpl.
  erewrite mapM_filter; [reflexivity| |exact Hall].
  intros raw e He. simpl. by apply eventItem_fields in He as (_ & _ & ->).
Qed.

(** C1, as amended.  When the normalization of all the events of the
    locale succeeds, so do [pastEvents] and [currentEvents]; their results
    are, up to order, the normalized events whose [isPastEvent] is true and
    those whose [isPastEvent] is false; the identifiers of the two results
    together are the identifiers of all the normalized events; and no
    identifier is in both results when the raw events carry pairwise
    different identifiers. *)
Theorem events_partition c all :
  getEvents c None None None = Ok all ->
  exists past current,
    pastEvents c = Ok past /\
    currentEvents c = Ok current /\
    past ≡ₚ List.filter Event.isPastEvent all /\
    current ≡ₚ List.filter (fun e => negb (Event.isPastEvent e)) all /\
    (forall i, i ∈ ids past \/ i ∈ ids current <-> i ∈ ids all) /\
    (NoDup (List.map rawId (getFilteredByGlob c (events_glob "en"))) ->
     forall i, ~ (i ∈ ids past /\ i ∈ ids current)).
Proof.
  intros Hall.
  exists (Array_sort sortDesc (List.filter Event.isPastEvent all)),
         (Array_sort sortAsc (List.filter (fun e => negb (Event.isPastEvent e)) all)).
  split; [by apply pastEvents_of_all|].
  split; [by apply currentEvents_of_all|].
  split; [apply Array_sort_perm|].
  split; [apply Array_sort_perm|].
  assert (forall i (q : Event.t -> bool) cmp,
             i ∈ ids (Array_sort cmp (List.filter q all)) <->
             exists e, i = Event.id e /\ e ∈ all /\ q e = true) as Hin.
  { intros i q cmp. unfold ids. rewrite elem_of_map.
    split; intros (e & -> & He); exists e; (split; [done|]).
    - rewrite Array_sort_perm in He. by apply elem_of_filter in He.
    - rewrite Array_sort_perm. by apply elem_of_filter. }
  split.
  - intros i. rewrite !Hin. unfold ids. rewrite elem_of_map. split.
    + intros [(e & -> & He & _)|(e & -> & He & _)]; eauto.
    + intros (e & -> & He). destruct (Event.isPastEvent e) eqn:Hp.
      * left. eauto.
      * right. exists e. by rewrite Hp.
  - intros Hnd i [(e1 & -> & He1 & Hp1)%Hin (e2 & Heq & He2 & Hp2)%Hin].
    apply getEvents_all, mapM_Ok_Forall2 in Hall.
    assert (List.map Event.id all =
            List.map rawId (getFilteredByGlob c (events_glob "en"))) as Hids.
    { apply Forall2_map_eq. eapply Forall2_impl; [exact Hall|].
      intros raw e He. by apply eventItem_fields in He as (-> & _). }
    rewrite <- Hids in Hnd.
    assert (e1 = e2) as -> by (by eapply NoDup_map_eq).
    rewrite Hp1 in Hp2. discriminate.
Qed.

End Views.

Lemma sample_sortAsc_ascending :
  ascendingByDate (sortAsc (Externals := Sample.externals)).
Proof.
  intros a b. simpl.
  destruct (Z.compare_spec (Event.date a) (Event.date b)); simpl; lia.
Qed.

Lemma sample_sortDesc_descending :
  descendingByDate (sortDesc (Externals := Sample.externals)).
Proof.
  intros a b. simpl.
  destruct (Z.compare_spec (Event.date b) (Event.date a)); simpl; lia.
Qed.

(** C1 on the sample site: the three events have the identifiers 1, 2 and
    3, and the past and the coming ones share none. *)
Lemma events_partition_witness :
  exists past current,
    pastEvents (X := Sample.externals) Sample.site = Ok past /\
    currentEvents (X := Sample.externals) Sample.site = Ok current /\
    ids past = [1; 3] /\ ids current = [2] /\
    (forall i, ~ (i ∈ ids past /\ i ∈ ids current)).
Proof.
  destruct (getEvents (X := Sample.externals) Sample.site None None None)
    as [all|m] eqn:Hall; [|vm_compute in Hall; discriminate].
  destruct (events_partition _ all Hall)
    as (past & current & Hp & Hc & _ & _ & _ & Hdisj).
  exists past, current.
  split; [exact Hp|]. split; [exact Hc|].
  vm_compute in Hp. vm_compute in Hc.
  injection Hp as <-. injection Hc as <-.
  split; [reflexivity|]. split; [reflexivity|].
  apply Hdisj. by apply (bool_decide_unpack _).
Defined.

(** C1 as it is stated fails: an event of the past and a coming event that
    carry the same identifier put that identifier in both results. *)
Lemma events_partition_counterexample :
  ~ (forall (X : Externals) c all past current,
       getEvents c None None None = Ok all ->
       pastEvents c = Ok past ->
       currentEvents c = Ok current ->
       (forall i, ~ (i ∈ ids past /\ i ∈ ids current)) /\
       (forall i, i ∈ ids past \/ i ∈ ids current <-> i ∈ ids all)).
Proof.
  intros H.
  edestruct (H Sample.externals Sample.site_of_one_id)
    as [Hdisj _]; [vm_compute; reflexivity ..|].
  apply (Hdisj 1). split; apply list_elem_of_In; vm_compute; tauto.
Qed.

(** ** The order of the two views *)

Section Order.
Context {X : Externals}.

Lemma getEvents_sorted c filter cmp locale events :
  getEvents c filter (Some cmp) locale = Ok events ->
  exists payload, events = Array_sort cmp payload.
Proof.
  rewrite getEvents_retained.
  destruct (mapM _ _) as [payload|m]; simpl; [|discriminate].
  intros [= <-]. by exists payload.
Qed.

(** C2, as amended.  With comparators that order by date, the list
    returned by [pastEvents] is sorted descending by date and the list
    returned by [currentEvents] is sorted ascending by date, events of the
    same date being allowed next to each other; each order is strict when no
    two of the returned events have the same date. *)
Theorem events_sorted_by_date c :
  ascendingByDate sortAsc ->
  descendingByDate sortDesc ->
  (forall past, pastEvents c = Ok past ->
     StronglySorted (fun a b => Event.date b <= Event.date a) past /\
     (NoDup (dates past) ->
      StronglySorted (fun a b => Event.date b < Event.date a) past)) /\
  (forall current, currentEvents c = Ok current ->
     StronglySorted (fun a b => Event.date a <= Event.date b) current /\
     (NoDup (dates current) ->
      StronglySorted (fun a b => Event.date a < Event.date b) current)).
Proof.
  intros Hasc Hdesc. split.
  - intros past (payload & ->)%getEvents_sorted.
    assert (StronglySorted (fun a b => Event.date b <= Event.date a)
              (Array_sort sortDesc payload)) as Hs.
    { apply Array_sort_sorted.
      - intros a b Hab. apply Hdesc in Hab. lia.
      - intros a b Hab. destruct (Hdesc a b) as [_ Hgt]. lia.
      - intros a b d. lia. }
    split; [exact Hs|]. intros Hnd.
    eapply (StronglySorted_strict Event.date); [|exact Hs|exact Hnd].
    intros a b. simpl. lia.
  - intros current (payload & ->)%getEvents_sorted.
    assert (StronglySorted (fun a b => Event.date a <= Event.date b)
              (Array_sort sortAsc payload)) as Hs.
    { apply Array_sort_sorted.
      - intros a b Hab. apply Hasc in Hab. lia.
      - intros a b Hab. destruct (Hasc a b) as [_ Hgt]. lia.
      - intros a b d. lia. }
    split; [exact Hs|]. intros Hnd.
    eapply (StronglySorted_strict Event.date); [|exact Hs|exact Hnd].
    intros a b. simpl. lia.
Qed.

End Order.

(** C2 on the sample site: the two past events of different dates come out
    latest first, and strictly so. *)
Lemma events_sorted_by_date_witness :
  exists past,
    pastEvents (X := Sample.externals) Sample.site_of_three_dates = Ok past /\
    dates past = [1600000000000; 1577836800000] /\
    StronglySorted (fun a b => Event.date b < Event.date a) past.
Proof.
  destruct (pastEvents (X := Sample.externals) Sample.site_of_three_dates)
    as [past|m] eqn:Hp; [|vm_compute in Hp; discriminate].
  destruct (events_sorted_by_date (X := Sample.externals)
              Sample.site_of_three_dates
              sample_sortAsc_ascending sample_sortDesc_descending)
    as [Hpast _].
  destruct (Hpast past Hp) as [_ Hstrict].
  exists past. split; [reflexivity|].
  vm_compute in Hp. injection Hp as <-.
  split; [reflexivity|].
  apply Hstrict. by apply (bool_decide_unpack _).
Defined.

(** C2 as it is stated fails: two past events of the same date are both
    returned, and neither date is strictly greater than the other. *)
Lemma events_sorted_by_date_counterexample :
  ~ (forall (X : Externals) c,
       ascendingByDate sortAsc ->
       descendingByDate sortDesc ->
       (forall past, pastEvents c = Ok past ->
          Sorted (fun a b => Event.date b < Event.date a) past) /\
       (forall current, currentEvents c = Ok current ->
          Sorted (fun a b => Event.date a < Event.date b) current)).
Proof.
  intros H.
  destruct (H Sample.externals Sample.site_of_one_date
              sample_sortAsc_ascending sample_sortDesc_descending) as [Hpast _].
  pose proof (Hpast _ ltac:(vm_compute; reflexivity)) as Hs.
  inversion Hs as [|e1 l _ Hhd]; subst.
  inversion Hhd as [|e3 l' Hlt]; subst. simpl in Hlt. lia.
Qed.

(** ** Unknown authors *)

Section UnknownAuthor.
Context {X : Externals}.

Lemma bind_outcome {A B : Type} (r : result A) (k : A -> B) handles :
  lookupOutcome r handles -> lookupOutcome (do a <- r; Ok (k a)) handles.
Proof.
  intros [H1 H2]. split.
  - intros Hex. destruct (H1 Hex) as (h & Hin & Hh & ->). by exists h.
  - intros Hall. destruct (H2 Hall) as (a & ->). simpl. eauto.
Qed.

(** C3, as amended.  A call fails on the handles of the raw events it
    normalizes, the events that pass its filter: when a session of one of
    those events refers to a handle that is not in the author directory and
    is not the name of a property that every object inherits, the call
    throws the error [Invalid author: <handle>] for such a handle and
    returns nothing; when all the handles of those events are in the
    directory, no such error is thrown.  For [eventTags] and for a query
    without a filter those events are all the retrieved ones, for
    [pastEvents] the past ones, for [currentEvents] the ones that are not
    past. *)
Theorem unknown_author_outcome c :
  let raw := getFilteredByGlob c (events_glob "en") in
  failsOnUnknown (pastEvents c)
    (flat_map eventHandles (List.filter isPastEvent raw)) /\
  failsOnUnknown (currentEvents c)
    (flat_map eventHandles (List.filter (fun e => negb (isPastEvent e)) raw)) /\
  failsOnUnknown (eventTags c) (flat_map eventHandles raw) /\
  (forall filter sort locale,
     failsOnUnknown (getEvents c filter sort locale)
       (flat_map eventHandles (retained c filter locale))).
Proof.
  intros raw. split; [|split; [|split]]; [| | |intros filter sort locale];
    apply lookupOutcome_unknown.
  - apply (getEvents_outcome c (Some (fun e => isPastEvent e)) (Some sortDesc) None).
  - apply (getEvents_outcome c (Some (fun e => negb (isPastEvent e)))
             (Some sortAsc) None).
  - unfold eventTags. apply bind_outcome.
    apply (getEvents_outcome c None None None).
  - apply getEvents_outcome.
Qed.

End UnknownAuthor.

(** C3 on the sample site with a coming event whose speaker is the unknown
    handle [ghost]: [currentEvents] and [eventTags] throw, and [pastEvents],
    whose only event has Alice as its speaker, throws no such error. *)
Lemma unknown_author_outcome_witness :
  (exists h, unknownAuthor (H := Sample.externals) h /\
     currentEvents (X := Sample.externals) Sample.site_with_ghost =
       Throw (invalidAuthor h)) /\
  (exists h, unknownAuthor (H := Sample.externals) h /\
     eventTags (X := Sample.externals) Sample.site_with_ghost =
       Throw (invalidAuthor h)) /\
  (forall h,
     pastEvents (X := Sample.externals) Sample.site_with_ghost <>
       Throw (invalidAuthor h)).
Proof.
  destruct (unknown_author_outcome (X := Sample.externals) Sample.site_with_ghost)
    as ([_ Hpast] & [Hcur _] & [Htags _] & _).
  assert (unknownAuthor (H := Sample.externals) "ghost") as Hghost.
  { split; [vm_compute; reflexivity|].
    intros Hin%existsb_eqb_elem. vm_compute in Hin. discriminate. }
  assert (knownAuthor (H := Sample.externals) "alice") as Halice.
  { eexists. vm_compute. reflexivity. }
  split; [|split].
  - destruct Hcur as (h & _ & Hh & Hc); [|by exists h].
    apply Exists_cons_hd. exact Hghost.
  - destruct Htags as (h & _ & Hh & Hc); [|by exists h].
    apply Exists_cons_tl, Exists_cons_hd. exact Hghost.
  - apply Hpast. constructor; [exact Halice | constructor].
Defined.

(** The handle [toString] has no entry in the sample directory, and a talk
    of [toString] is normalized all the same: the test of [getAuthorData]
    finds the inherited property of that name. *)
Lemma inherited_name_is_resolved :
  ~ knownAuthor (H := Sample.externals) "toString" /\
  exists tags,
    eventTags (X := Sample.externals) Sample.site_of_toString = Ok tags /\
    List.map SpeakerTag.handle (Tags.speakers tags) = ["alice"; "toString"].
Proof.
  split.
  - intros [a Ha]. vm_compute in Ha. discriminate.
  - eexists. split; [vm_compute; reflexivity | reflexivity].
Qed.

(** C3 as it is stated fails: an unknown handle in an event that the filter
    of [pastEvents] drops does not make [pastEvents] fail. *)
Lemma unknown_author_counterexample :
  ~ (forall (X : Externals) c,
       Exists (fun h => ~ knownAuthor h)
         (flat_map eventHandles (getFilteredByGlob c (events_glob "en"))) ->
       (exists m, pastEvents c = Throw m) /\
       (exists m, currentEvents c = Throw m) /\
       (exists m, eventTags c = Throw m)).
Proof.
  intros H.
  destruct (H Sample.externals Sample.site_with_ghost) as [[m Hm] _].
  - apply Exists_cons_tl, Exists_cons_hd.
    intros [a Ha]. vm_compute in Ha. discriminate.
  - vm_compute in Hm. discriminate.
Qed.

(** ** The author resolver *)

Section Resolver.
Context {X : Externals}.

(** C8, as amended.  For a handle of the author directory and any locale,
    the title of the resolved author is what the localization service
    returns for the key [i18n.authors.<handle>.title] and that locale, the
    image is the image of the directory record or, when the record has none,
    the default avatar, the social handles are those of the record, and the
    handle is the given one. *)
Theorem getAuthorData_known authorHandle locale authorData :
  authorsData !! authorHandle = Some authorData ->
  getAuthorData authorHandle locale =
  Ok {| Person.image := default defaultAvatarImg (AuthorData.image authorData);
        Person.title :=
          i18n ("i18n.authors." +:+ authorHandle +:+ ".title") (Some locale);
        Person.twitter := AuthorData.twitter authorData;
        Person.linkedin := AuthorData.linkedin authorData;
        Person.handle := authorHandle |}.
Proof. intros H. unfold getAuthorData, authorsData_get. by rewrite H. Qed.

Lemma getAuthorData_handle authorHandle locale p :
  getAuthorData authorHandle locale = Ok p -> Person.handle p = authorHandle.
Proof.
  unfold getAuthorData. destruct (authorsData_get authorHandle); [|discriminate].
  by intros [= <-].
Qed.

End Resolver.

(** C8 on the sample directory: Bob has no image of his own. *)
Lemma getAuthorData_known_witness :
  getAuthorData (X := Sample.externals) "bob" "en" =
  Ok {| Person.image := "image/default-avatar.png";
        Person.title := "i18n.authors.bob.title@en";
        Person.twitter := None;
        Person.linkedin := Some "bob";
        Person.handle := "bob" |}.
Proof.
  apply (getAuthorData_known (X := Sample.externals) "bob" "en"
           {| AuthorData.image := None;
              AuthorData.twitter := None;
              AuthorData.linkedin := Some "bob" |}).
  vm_compute. reflexivity.
Defined.

(** C8 as it is stated fails: the key that is looked up starts with
    [i18n.authors.], not with [events.authors.]. *)
Lemma getAuthorData_known_counterexample :
  ~ (forall (X : Externals) authorHandle locale authorData,
       authorsData !! authorHandle = Some authorData ->
       exists p,
         getAuthorData authorHandle locale = Ok p /\
         Person.title p =
           i18n ("events.authors." +:+ authorHandle +:+ ".title") (Some locale) /\
         Person.image p = default defaultAvatarImg (AuthorData.image authorData) /\
         Person.handle p = authorHandle).
Proof.
  intros H.
  edestruct (H Sample.externals "alice" "en") as (p & Hp & Ht & _).
  { vm_compute. reflexivity. }
  vm_compute in Hp. injection Hp as <-. vm_compute in Ht. discriminate.
Qed.

(** ** The session normalizer *)

Section Sessions.
Context {X : Externals}.

Lemma participants_known locale hs :
  Forall knownAuthor hs ->
  exists ps, mapM (fun h => getAuthorData h locale) hs = Ok ps.
Proof.
  intros Hall.
  apply (resolves_outcome (fun hs => hs) _ hs (participants_resolves locale)).
  eapply Forall_impl; [exact Hall|]. apply knownAuthor_resolvable.
Qed.

(** C4.  A session that is not of type ['speaker'] and whose participants
    are all in the directory is normalized; its participants are the
    resolved authors in the order of the input; with exactly one participant
    the title is the title of that participant and the image is built from
    the image of that participant; with any other number the title is the
    "multiple participants" label of the localization service and the image
    is built from the fixed [chromeImg] reference. *)
Theorem panel_session session locale :
  RawSession.type session <> "speaker" ->
  Forall knownAuthor (RawSession.participants session) ->
  exists participants s,
    Forall2 (fun h p => getAuthorData h locale = Ok p)
      (RawSession.participants session) participants /\
    processSession session locale = Ok s /\
    Session.who s = Participants participants /\
    (forall p, participants = [p] ->
       Session.title s = Person.title p /\
       Session.image s = panelImage (Person.image p) (Person.title p)) /\
    (length participants <> 1%nat ->
       Session.title s = multipleParticipants /\
       Session.image s = panelImage chromeImg multipleParticipants).
Proof.
  intros Htype Hknown.
  destruct (participants_known locale _ Hknown) as [ps Hps].
  exists ps. eexists. split; [by apply mapM_Ok_Forall2|].
  unfold processSession.
  destruct (String.eqb_spec (RawSession.type session) "speaker") as [?|_]; [done|].
  rewrite Hps. simpl. split; [reflexivity|]. split; [reflexivity|]. split.
  - by intros p ->.
  - intros Hlen. by destruct ps as [|p [|p' ps]].
Qed.

(** C10.  A session that is not of type ['speaker'] and has no participant
    is normalized without an error: its participants are the empty list, its
    title is the "multiple participants" label and its image is built from
    the fixed [chromeImg] reference. *)
Theorem empty_panel_session session locale :
  RawSession.type session <> "speaker" ->
  RawSession.participants session = [] ->
  processSession session locale =
  Ok {| Session.title := multipleParticipants;
        Session.description := RawSession.description session;
        Session.type := RawSession.type session;
        Session.topics := RawSession.topics session;
        Session.slidesUrl := RawSession.slidesUrl session;
        Session.videoUrl := RawSession.videoUrl session;
        Session.who := Participants [];
        Session.image := panelImage chromeImg multipleParticipants |}.
Proof.
  intros Htype Hnone. unfold processSession.
  destruct (String.eqb_spec (RawSession.type session) "speaker") as [?|_]; [done|].
  by rewrite Hnone.
Qed.

(** C7.  When a raw event is normalized, the normalized event has as many
    sessions as the raw event, and its session at each index is the
    normalization of the raw session at that index. *)
Theorem sessions_of_event locale event e :
  eventItem locale event = Ok e ->
  length (Event.sessions e) =
    length (EventData.sessions (CollectionItem.data event)) /\
  forall (i : nat) session,
    EventData.sessions (CollectionItem.data event) !! i = Some session ->
    exists s, Event.sessions e !! i = Some s /\
              processSession session locale = Ok s.
Proof.
  unfold eventItem.
  destruct (mapM _ _) as [sessions|m] eqn:Hs; simpl; [|discriminate].
  intros [= <-]. simpl. apply mapM_Ok_Forall2 in Hs. split.
  - symmetry. by eapply Forall2_length.
  - intros i session Hi.
    destruct (Forall2_lookup_l _ _ _ _ _ Hs Hi) as (s & Hsi & Hok). eauto.
Qed.

(** Every event that [getEvents] returns is the normalization of one of the
    raw events that passed the filter. *)
Lemma getEvents_items c filter sort locale events e :
  getEvents c filter sort locale = Ok events ->
  e ∈ events ->
  exists event, event ∈ retained c filter locale /\
                eventItem (default "en" locale) event = Ok e.
Proof.
  rewrite getEvents_retained.
  destruct (mapM _ _) as [payload|m] eqn:Hp; simpl; [|discriminate].
  intros [= <-] He.
  assert (e ∈ payload) as He'.
  { destruct sort; [by rewrite Array_sort_perm in He | done]. }
  apply mapM_Ok_Forall2 in Hp.
  apply list_elem_of_lookup in He' as [i Hi].
  destruct (Forall2_lookup_r _ _ _ _ _ Hp Hi) as (event & Hev & Hok).
  exists event. split; [|done]. apply list_elem_of_lookup. eauto.
Qed.

End Sessions.

(** C4 on the sample site: the panel of Bob alone takes Bob's title and
    image, the panel of Bob and Carol takes the label and [chromeImg]. *)
Lemma panel_session_witness :
  (exists s,
     processSession (X := Sample.externals) Sample.solo "en" = Ok s /\
     Session.title s = "i18n.authors.bob.title@en" /\
     Session.image s =
       panelImage (H := Sample.externals)
         "image/default-avatar.png" "i18n.authors.bob.title@en") /\
  (exists s,
     processSession (X := Sample.externals) Sample.panel "en" = Ok s /\
     Session.title s = "i18n.events.multiple_participants@en" /\
     Session.image s =
       panelImage (H := Sample.externals)
         "image/chrome.png" "i18n.events.multiple_participants@en").
Proof.
  assert (forall h, h ∈ ["bob"; "carol"] -> knownAuthor (H := Sample.externals) h)
    as Hknown.
  { intros h [->|[->|[]%elem_of_nil]%elem_of_cons]%elem_of_cons;
      eexists; vm_compute; reflexivity. }
  split.
  - destruct (panel_session (X := Sample.externals) Sample.solo "en")
      as (ps & s & Hres & Hs & _ & Hone & _).
    + discriminate.
    + constructor; [|constructor]. apply Hknown. set_solver.
    + exists s. split; [exact Hs|].
      inversion Hres as [|h p hs ps' Hp Hnil]; subst.
      inversion Hnil; subst.
      vm_compute in Hp. injection Hp as <-.
      exact (Hone _ eq_refl).
  - destruct (panel_session (X := Sample.externals) Sample.panel "en")
      as (ps & s & Hres & Hs & _ & _ & Hmany).
    + discriminate.
    + constructor; [|constructor; [|constructor]]; apply Hknown; set_solver.
    + exists s. split; [exact Hs|].
      apply Hmany. apply Forall2_length in Hres. simpl in Hres. lia.
Defined.

(** C10 on the sample site. *)
Lemma empty_panel_session_witness :
  processSession (X := Sample.externals) Sample.empty_panel "en" =
  Ok {| Session.title := "i18n.events.multiple_participants@en";
        Session.description := "About the web";
        Session.type := "panel";
        Session.topics := [];
        Session.slidesUrl := None;
        Session.videoUrl := None;
        Session.who := Participants [];
        Session.image := "image/chrome.png#i18n.events.multiple_participants@en" |}.
Proof.
  apply (empty_panel_session (X := Sample.externals) Sample.empty_panel "en").
  - discriminate.
  - reflexivity.
Defined.

(** C7 on the sample site: the second event has two sessions, and the one
    at index 1 is the normalization of the raw session at index 1. *)
Lemma sessions_of_event_witness :
  exists e s,
    eventItem (X := Sample.externals) "en" Sample.event2 = Ok e /\
    length (Event.sessions e) = 2%nat /\
    Event.sessions e !! 1%nat = Some s /\
    processSession (X := Sample.externals) Sample.solo "en" = Ok s.
Proof.
  destruct (eventItem (X := Sample.externals) "en" Sample.event2)
    as [e|m] eqn:He; [|vm_compute in He; discriminate].
  destruct (sessions_of_event (X := Sample.externals) "en" Sample.event2 e He)
    as [Hlen Hnth].
  destruct (Hnth 1%nat Sample.solo eq_refl) as (s & Hs & Hok).
  exists e, s. split; [reflexivity|]. split; [exact Hlen|]. by split.
Defined.

(** ** The locale of the entry points *)

Section Locale.
Context {X : Externals}.

(** C9, as amended.  The three entry points [pastEvents], [currentEvents]
    and [eventTags] take the collections object only; each of them is the
    query for the locale ['en'], and its result depends on the content store
    only through the raw events of the glob of ['en']. *)
Theorem entry_points_locale c :
  pastEvents c = getEvents c (Some isPastEvent) (Some sortDesc) (Some "en") /\
  currentEvents c =
    getEvents c (Some (fun e => negb (isPastEvent e))) (Some sortAsc) (Some "en") /\
  eventTags c =
    (do events <- getEvents c None None (Some "en"); Ok (facets events)) /\
  forall c',
    getFilteredByGlob c' "./site/en/meet-the-team/events/**/*.md" =
    getFilteredByGlob c "./site/en/meet-the-team/events/**/*.md" ->
    pastEvents c' = pastEvents c /\
    currentEvents c' = currentEvents c /\
    eventTags c' = eventTags c.
Proof.
  split; [reflexivity|]. split; [reflexivity|]. split; [reflexivity|].
  intros c' Hglob.
  assert (forall filter sort,
             getEvents c' filter sort None = getEvents c filter sort None) as Hq.
  { intros filter sort. rewrite !getEvents_retained. unfold retained.
    change (events_glob (default "en" None))
      with "./site/en/meet-the-team/events/**/*.md".
    by rewrite Hglob. }
  unfold pastEvents, currentEvents, eventTags. by rewrite !Hq.
Qed.

End Locale.

(** C9 on the sample site: adding a French event changes nothing. *)
Lemma entry_points_locale_witness :
  pastEvents (X := Sample.externals) Sample.site_with_french =
    pastEvents (X := Sample.externals) Sample.site /\
  currentEvents (X := Sample.externals) Sample.site_with_french =
    currentEvents (X := Sample.externals) Sample.site /\
  eventTags (X := Sample.externals) Sample.site_with_french =
    eventTags (X := Sample.externals) Sample.site.
Proof.
  destruct (entry_points_locale (X := Sample.externals) Sample.site)
    as (_ & _ & _ & H).
  apply (H Sample.site_with_french). reflexivity.
Defined.

(** C9 as it is stated fails: for the locale ['fr'] and a store whose only
    event is French, the entry points return no event, while the query for
    ['fr'] returns one. *)
Lemma entry_points_locale_counterexample :
  ~ (forall (X : Externals) c locale,
       pastEvents c =
         getEvents c (Some isPastEvent) (Some sortDesc) (Some locale) /\
       currentEvents c =
         getEvents c (Some (fun e => negb (isPastEvent e))) (Some sortAsc)
           (Some locale) /\
       eventTags c =
         (do events <- getEvents c None None (Some locale); Ok (facets events))).
Proof.
  intros H.
  destruct (H Sample.externals (Sample.storeFr [Sample.event1]) "fr") as [Hp _].
  vm_compute in Hp. discriminate.
Qed.

(** ** The facets *)

Lemma filter_perm {A : Type} (p : A -> bool) (l l' : list A) :
  l ≡ₚ l' -> List.filter p l ≡ₚ List.filter p l'.
Proof.
  induction 1 as [|x l l' _ IH|x y l|l l' l'' _ IH _ IH'].
  - done.
  - simpl. destruct (p x); [by constructor | done].
  - simpl. destruct (p x), (p y); try done. apply Permutation_swap.
  - by etransitivity.
Qed.

Lemma Set_spread_eachOnce (l : list string) : eachOnce (Set_spread l) l.
Proof.
  unfold Set_spread. rewrite Set_add_all_firsts.
  pose proof (firsts_NoDup (fun x : string => x) [] l) as Hnd.
  pose proof (firsts_keys (fun x : string => x) [] l) as Hin.
  rewrite List.map_id in Hnd. split; [exact Hnd|].
  intros x. specialize (Hin x). rewrite !List.map_id in Hin.
  rewrite Hin. split; [tauto|]. intros Hx. split; [done|]. apply not_elem_of_nil.
Qed.

Lemma firsts_elem {A : Type} (key : A -> string) seen (l : list A) x :
  x ∈ firsts key seen l -> x ∈ l.
Proof.
  revert seen. induction l as [|y l IH]; intros seen; [done|].
  rewrite firsts_cons. destruct (existsb _ seen).
  - intros Hx. apply elem_of_cons. right. by eapply IH.
  - intros [->|Hx]%elem_of_cons; apply elem_of_cons; [by left|].
    right. by eapply IH.
Qed.

Section Facets.
Context {X : Externals}.

Lemma ascending_sort {A : Type} (cmp : A -> A -> Z) (l : list A) :
  ConsistentComparator cmp -> ascending cmp (Array_sort cmp l).
Proof.
  intros [Hflip Htrans]. apply Array_sort_sorted.
  - intros a b Hab. apply Hflip in Hab. lia.
  - intros a b Hab. lia.
  - exact Htrans.
Qed.

Lemma uniqueSpeakers_firsts events :
  uniqueSpeakers events =
  Array_sort (fun a b => localeCompare (SpeakerTag.title a) (SpeakerTag.title b))
    (firsts SpeakerTag.handle [] (rawSpeakers events)).
Proof.
  unfold uniqueSpeakers.
  by rewrite (Array_filter_index_firsts SpeakerTag.handle).
Qed.

Lemma sorted_strings_eachOnce (l : list string) :
  eachOnce (Array_sort localeCompare (Set_spread l)) l.
Proof.
  destruct (Set_spread_eachOnce l) as [Hnd Hin]. split.
  - by rewrite Array_sort_perm.
  - intros x. by rewrite Array_sort_perm.
Qed.

(** C6.  For every handle that occurs among the flattened speaker and
    participant pairs, the speakers facet holds exactly one entry with that
    handle, and this entry is the first pair with that handle in the order of
    the flattening, with the title of that first pair. *)
Theorem first_occurrence_wins events h :
  h ∈ List.map SpeakerTag.handle (rawSpeakers events) ->
  exists first,
    List.find (hasHandle h) (rawSpeakers events) = Some first /\
    List.filter (hasHandle h) (uniqueSpeakers events) = [first].
Proof.
  intros Hh.
  destruct (List.find (hasHandle h) (rawSpeakers events)) as [first|] eqn:Hfind.
  - exists first. split; [reflexivity|].
    apply Permutation_singleton_r.
    rewrite uniqueSpeakers_firsts, (filter_perm _ _ _ (Array_sort_perm _ _)).
    unfold hasHandle in *.
    rewrite (firsts_filter SpeakerTag.handle [] _ h) by apply not_elem_of_nil.
    by rewrite Hfind.
  - apply elem_of_map in Hh as (s & -> & Hs).
    apply list_elem_of_In in Hs.
    pose proof (find_none _ _ Hfind s Hs) as Hne.
    unfold hasHandle in Hne. by rewrite String.eqb_refl in Hne.
Qed.

(** C5.  For a consistent [localeCompare], when [eventTags] returns: the
    locations facet holds every location of the normalized events exactly
    once, the topics facet every topic of their sessions exactly once, the
    speakers facet exactly one entry, taken from the flattened pairs, for
    every handle of the speakers and participants; locations and topics are
    in ascending order of [localeCompare], speakers in ascending order of
    [localeCompare] on their titles. *)
Theorem facets_unique_sorted c tags :
  ConsistentComparator localeCompare ->
  eventTags c = Ok tags ->
  exists events,
    getEvents c None None None = Ok events /\
    eachOnce (Tags.locations tags) (List.map Event.location events) /\
    ascending localeCompare (Tags.locations tags) /\
    eachOnce (Tags.topics tags) (allTopics events) /\
    ascending localeCompare (Tags.topics tags) /\
    eachOnce (List.map SpeakerTag.handle (Tags.speakers tags))
      (List.map SpeakerTag.handle (rawSpeakers events)) /\
    (forall s, s ∈ Tags.speakers tags -> s ∈ rawSpeakers events) /\
    ascending
      (fun a b => localeCompare (SpeakerTag.title a) (SpeakerTag.title b))
      (Tags.speakers tags).
Proof.
  intros Hcmp. unfold eventTags.
  destruct (getEvents c None None None) as [events|m]; simpl; [|discriminate].
  intros [= <-]. exists events. simpl.
  split; [reflexivity|].
  split; [apply sorted_strings_eachOnce|].
  split; [by apply ascending_sort|].
  split; [apply sorted_strings_eachOnce|].
  split; [by apply ascending_sort|].
  rewrite uniqueSpeakers_firsts. split; [|split].
  - split.
    + rewrite (Permutation_map _ (Array_sort_perm _ _)). apply firsts_NoDup.
    + intros h. rewrite (Permutation_map _ (Array_sort_perm _ _)).
      rewrite firsts_keys. split; [tauto|]. intros Hh. split; [done|].
      apply not_elem_of_nil.
  - intros s. rewrite Array_sort_perm. apply firsts_elem.
  - apply ascending_sort. destruct Hcmp as [Hflip Htrans]. split.
    + intros a b. apply Hflip.
    + intros a b d. apply Htrans.
Qed.

End Facets.

Lemma sample_localeCompare_consistent :
  ConsistentComparator (localeCompare (Externals := Sample.externals)).
Proof.
  pose proof String_as_OT.lt_strorder as [Hirr0 Htr0].
  assert (forall a, String_as_OT.lt a a -> False) as Hirr
    by (intros a Ha; exact (Hirr0 a Ha)).
  assert (forall a b d, String_as_OT.lt a b -> String_as_OT.lt b d ->
                        String_as_OT.lt a d) as Htr
    by (intros a b d; apply Htr0).
  assert (forall a b, String_as_OT.lt a b -> String_as_OT.lt b a -> False) as Hasym.
  { intros a b Hab Hba. exact (Hirr a (Htr a b a Hab Hba)). }
  split; simpl.
  - intros a b.
    destruct (String_as_OT.compare_spec a b) as [Hab|Hab|Hab],
             (String_as_OT.compare_spec b a) as [Hba|Hba|Hba];
      simpl; try lia; exfalso; unfold String_as_OT.eq in *; subst;
      solve [ eapply Hirr; eassumption | eapply Hasym; eassumption ].
  - intros a b d.
    destruct (String_as_OT.compare_spec a b) as [Hab|Hab|Hab],
             (String_as_OT.compare_spec b d) as [Hbd|Hbd|Hbd],
             (String_as_OT.compare_spec a d) as [Had|Had|Had];
      simpl; try lia; intros _ _; exfalso; unfold String_as_OT.eq in *; subst;
      solve [ eapply Hirr; eassumption
            | eapply Hasym; eassumption
            | eapply Hasym; [eapply Htr; eassumption | eassumption] ].
Qed.

(** C6 on the sample events, where the handle [bob] occurs with the titles
    Robert, Bob and Bobby in this order: the facet keeps Robert. *)
Lemma first_occurrence_wins_witness :
  List.filter (hasHandle "bob")
    (uniqueSpeakers (X := Sample.externals) Sample.twoTitles) =
  [ {| SpeakerTag.handle := "bob"; SpeakerTag.title := "Robert" |} ].
Proof.
  destruct (first_occurrence_wins (X := Sample.externals) Sample.twoTitles "bob")
    as (first & Hfind & Hfilter).
  - apply list_elem_of_In. vm_compute. tauto.
  - vm_compute in Hfind. injection Hfind as <-. exact Hfilter.
Defined.

(** C5 on the sample site, where Berlin is the location of two events, the
    topic [css] is given three times and Bob sits on two panels. *)
Lemma facets_unique_sorted_witness :
  exists tags,
    eventTags (X := Sample.externals) Sample.site = Ok tags /\
    Tags.locations tags = ["Berlin"; "Online"] /\
    Tags.topics tags = ["css"; "devtools"; "pwa"] /\
    List.map SpeakerTag.handle (Tags.speakers tags) = ["alice"; "bob"; "carol"] /\
    NoDup (Tags.locations tags) /\
    NoDup (Tags.topics tags) /\
    NoDup (List.map SpeakerTag.handle (Tags.speakers tags)) /\
    ascending (localeCompare (Externals := Sample.externals)) (Tags.locations tags) /\
    ascending (localeCompare (Externals := Sample.externals)) (Tags.topics tags) /\
    ascending
      (fun a b => localeCompare (Externals := Sample.externals)
                    (SpeakerTag.title a) (SpeakerTag.title b))
      (Tags.speakers tags).
Proof.
  destruct (eventTags (X := Sample.externals) Sample.site) as [tags|m] eqn:Ht;
    [|vm_compute in Ht; discriminate].
  destruct (facets_unique_sorted (X := Sample.externals) Sample.site tags
              sample_localeCompare_consistent Ht)
    as (events & _ & [Hl _] & Hla & [Ht' _] & Hta & [Hs _] & _ & Hsa).
  exists tags. split; [reflexivity|].
  vm_compute in Ht. injection Ht as <-.
  split; [reflexivity|]. split; [reflexivity|]. split; [reflexivity|].
  by repeat split.
Defined.

(** * Further properties of the collections *)

(** ** Sessions *)

Section MoreSessions.
Context {X : Externals}.

Lemma getAuthorData_Ok authorHandle locale p :
  getAuthorData authorHandle locale = Ok p ->
  resolvable authorHandle /\
  Person.handle p = authorHandle /\
  Person.title p = i18n (authorTitleKey authorHandle) (Some locale).
Proof.
  unfold getAuthorData, resolvable, authorTitleKey.
  destruct (authorsData_get authorHandle) as [a|]; [|discriminate].
  intros [= <-]. simpl. eauto.
Qed.

Lemma participants_handles locale hs ps :
  mapM (fun h => getAuthorData h locale) hs = Ok ps ->
  List.map Person.handle ps = hs.
Proof.
  intros H%mapM_Ok_Forall2.
  induction H as [|h p hs ps Hp _ IH]; simpl; [done|].
  apply getAuthorData_Ok in Hp as (_ & -> & _). by rewrite IH.
Qed.

(** X1.  A session of type ['speaker'] is decided by its speaker alone,
    through [authorsData[speaker]].  With a speaker of the directory it
    keeps its own title and carries the resolved speaker and an image built
    from the speaker's image and title.  With a speaker that is not in the
    directory but is the name of a property the directory object inherits,
    such as [toString], the test of [getAuthorData] passes as well and the
    session carries that handle with the default avatar and no social
    handles.  With any other speaker the call throws
    [Invalid author: <speaker>].  The list of participants of such a session
    is never looked at. *)
Theorem speaker_session session locale :
  RawSession.type session = "speaker" ->
  (forall authorData,
     authorsData !! RawSession.speaker session = Some authorData ->
     processSession session locale = Ok (speakerView session locale authorData)) /\
  (authorsData !! RawSession.speaker session = None ->
   RawSession.speaker session ∈ Object_prototype ->
   processSession session locale = Ok (speakerView session locale inheritedValue)) /\
  (unknownAuthor (RawSession.speaker session) ->
   processSession session locale = Throw (invalidAuthor (RawSession.speaker session))).
Proof.
  intros Htype%String.eqb_eq.
  unfold processSession, getAuthorData, authorsData_get.
  rewrite Htype. split; [|split].
  - by intros a ->.
  - intros -> Hin%existsb_eqb_elem. by rewrite Hin.
  - intros [-> Hnot].
    destruct (existsb _ Object_prototype) eqn:Hin; [|done].
    by apply existsb_eqb_elem in Hin.
Qed.

(** X2.  Whatever its type, a session that is normalized keeps its
    description, type, topics and the two URLs; a session of type
    ['speaker'] also keeps its title and carries one resolved speaker whose
    handle is the speaker of the input; any other session carries resolved
    participants whose handles are the participants of the input, in the
    same order. *)
Theorem processSession_keeps session locale s :
  processSession session locale = Ok s ->
  Session.description s = RawSession.description session /\
  Session.type s = RawSession.type session /\
  Session.topics s = RawSession.topics session /\
  Session.slidesUrl s = RawSession.slidesUrl session /\
  Session.videoUrl s = RawSession.videoUrl session /\
  (RawSession.type session = "speaker" ->
     Session.title s = RawSession.title session /\
     exists speaker,
       Session.who s = Speaker speaker /\
       Person.handle speaker = RawSession.speaker session) /\
  (RawSession.type session <> "speaker" ->
     exists participants,
       Session.who s = Participants participants /\
       List.map Person.handle participants = RawSession.participants session).
Proof.
  unfold processSession.
  destruct (String.eqb_spec (RawSession.type session) "speaker") as [Ht|Ht].
  - destruct (getAuthorData _ _) as [sp|m] eqn:Hsp; simpl; [|discriminate].
    intros [= <-]. simpl. split_and!; try done.
    intros _. split; [done|]. exists sp. split; [done|].
    by apply getAuthorData_Ok in Hsp as (_ & ? & _).
  - destruct (mapM _ _) as [ps|m] eqn:Hps; simpl; [|discriminate].
    intros [= <-]. simpl. split_and!; try done.
    intros _. exists ps. split; [done|]. by eapply participants_handles.
Qed.

(** X3.  The locale does not reach the label of a panel: a session that is
    not of type ['speaker'], whose participants are all in the directory and
    are not exactly one, gets the same title and the same image for any two
    locales, the title being what [i18n] returns for the key of the label
    when it is called without a locale. *)
Theorem panel_label_ignores_locale session locale1 locale2 :
  RawSession.type session <> "speaker" ->
  length (RawSession.participants session) <> 1%nat ->
  Forall knownAuthor (RawSession.participants session) ->
  exists s1 s2,
    processSession session locale1 = Ok s1 /\
    processSession session locale2 = Ok s2 /\
    Session.title s1 = i18n "i18n.events.multiple_participants" None /\
    Session.title s2 = Session.title s1 /\
    Session.image s2 = Session.image s1.
Proof.
  intros Htype Hlen Hknown.
  destruct (participants_known locale1 _ Hknown) as [ps1 H1].
  destruct (participants_known locale2 _ Hknown) as [ps2 H2].
  assert (length ps1 <> 1%nat) as Hl1.
  { apply participants_handles in H1. rewrite <- H1, length_map in Hlen. done. }
  assert (length ps2 <> 1%nat) as Hl2.
  { apply participants_handles in H2. rewrite <- H2, length_map in Hlen. done. }
  unfold processSession.
  destruct (String.eqb_spec (RawSession.type session) "speaker") as [?|_]; [done|].
  rewrite H1, H2. simpl. eexists _, _.
  split; [reflexivity|]. split; [reflexivity|]. simpl.
  destruct ps1 as [|p1 [|q1 ps1]]; destruct ps2 as [|p2 [|q2 ps2]];
    simpl in *; done.
Qed.

End MoreSessions.

(** X1 on the sample directory: the unknown participant of Alice's talk
    does no harm, a talk of [toString] is given the default avatar, and a
    talk of [ghost] throws. *)
Lemma speaker_session_witness :
  processSession (X := Sample.externals) Sample.talk_with_stranger "en" =
    Ok (speakerView (H := Sample.externals) Sample.talk_with_stranger "en"
          {| AuthorData.image := Some "image/alice.jpg";
             AuthorData.twitter := Some "alice";
             AuthorData.linkedin := None |}) /\
  processSession (X := Sample.externals) Sample.talk_of_toString "en" =
    Ok (speakerView (H := Sample.externals) Sample.talk_of_toString "en"
          inheritedValue) /\
  processSession (X := Sample.externals) Sample.ghost_talk "en" =
    Throw "Invalid author: ghost".
Proof.
  split; [|split].
  - apply (speaker_session (X := Sample.externals)
             Sample.talk_with_stranger "en" eq_refl).
    vm_compute. reflexivity.
  - apply (speaker_session (X := Sample.externals)
             Sample.talk_of_toString "en" eq_refl).
    + vm_compute. reflexivity.
    + apply existsb_eqb_elem. vm_compute. reflexivity.
  - apply (speaker_session (X := Sample.externals) Sample.ghost_talk "en" eq_refl).
    split; [vm_compute; reflexivity|].
    intros Hin%existsb_eqb_elem. vm_compute in Hin. discriminate.
Defined.

(** X2 on the sample site: the panel of Bob and Carol. *)
Lemma processSession_keeps_witness :
  exists s participants,
    processSession (X := Sample.externals) Sample.panel "en" = Ok s /\
    Session.topics s = ["css"] /\
    Session.who s = Participants participants /\
    List.map Person.handle participants = ["bob"; "carol"].
Proof.
  destruct (processSession (X := Sample.externals) Sample.panel "en")
    as [s|m] eqn:Hs; [|vm_compute in Hs; discriminate].
  destruct (processSession_keeps (X := Sample.externals) Sample.panel "en" s Hs)
    as (_ & _ & Htopics & _ & _ & _ & Hpanel).
  destruct Hpanel as (ps & Hwho & Hhandles); [discriminate|].
  exists s, ps. by repeat split.
Defined.

(** X3 on the sample site: the panel of Bob and Carol in English and in
    French. *)
Lemma panel_label_ignores_locale_witness :
  exists s1 s2,
    processSession (X := Sample.externals) Sample.panel "en" = Ok s1 /\
    processSession (X := Sample.externals) Sample.panel "fr" = Ok s2 /\
    Session.title s1 = "i18n.events.multiple_participants@en" /\
    Session.title s2 = Session.title s1 /\
    Session.image s2 = Session.image s1.
Proof.
  apply (panel_label_ignores_locale (X := Sample.externals) Sample.panel "en" "fr").
  - discriminate.
  - simpl. lia.
  - repeat constructor; eexists; vm_compute; reflexivity.
Defined.

(** ** Which error is thrown *)

Lemma find_app_first {A : Type} (p : A -> bool) (l k : list A) :
  List.find p (l ++ k) =
  match List.find p l with
  | Some x => Some x
  | None => List.find p k
  end.
Proof.
  induction l as [|x l IH]; simpl; [done|]. by destruct (p x).
Qed.

Section ErrorOrder.
Context {X : Externals}.

Lemma firstUndefined_app hs hs' :
  firstUndefined (hs ++ hs') =
  match firstUndefined hs with
  | Some h => Some h
  | None => firstUndefined hs'
  end.
Proof. apply find_app_first. Qed.

Lemma mapM_resolvesInOrder {A B : Type} (refs : A -> list string)
    (f : A -> result B) :
  resolvesInOrder refs f -> resolvesInOrder (flat_map refs) (mapM f).
Proof.
  intros Hf l. induction l as [|x l IH].
  - simpl. by exists [].
  - simpl flat_map. rewrite firstUndefined_app, mapM_cons. specialize (Hf x).
    destruct (firstUndefined (refs x)) as [h|].
    + by rewrite Hf.
    + destruct Hf as [y ->].
      destruct (firstUndefined (flat_map refs l)) as [h|].
      * by rewrite IH.
      * destruct IH as [ys ->]. eauto.
Qed.

Lemma getAuthorData_resolvesInOrder locale :
  resolvesInOrder (fun h => [h]) (fun h => getAuthorData h locale).
Proof.
  intros h. unfold firstUndefined, hasProperty, getAuthorData. simpl.
  destruct (authorsData_get h); simpl; eauto.
Qed.

Lemma processSession_resolvesInOrder locale :
  resolvesInOrder sessionHandles (fun s => processSession s locale).
Proof.
  intros s. unfold processSession, sessionHandles.
  destruct (String.eqb (RawSession.type s) "speaker").
  - pose proof (getAuthorData_resolvesInOrder locale (RawSession.speaker s)) as H.
    cbv beta in H. destruct (firstUndefined _) as [h|].
    + by rewrite H.
    + destruct H as [sp ->]. simpl. eauto.
  - pose proof (mapM_resolvesInOrder _ _ (getAuthorData_resolvesInOrder locale)
                  (RawSession.participants s)) as H.
    replace (flat_map (fun h => [h]) (RawSession.participants s))
      with (RawSession.participants s) in H
      by (clear; induction (RawSession.participants s) as [|h hs IH];
          simpl; [done | by rewrite <- IH]).
    destruct (firstUndefined _) as [h|].
    + by rewrite H.
    + destruct H as [ps ->]. simpl. eauto.
Qed.

Lemma eventItem_resolvesInOrder locale :
  resolvesInOrder eventHandles (eventItem locale).
Proof.
  intros e. unfold eventItem, eventHandles.
  pose proof (mapM_resolvesInOrder _ _ (processSession_resolvesInOrder locale)
                (EventData.sessions (CollectionItem.data e))) as H.
  destruct (firstUndefined _) as [h|].
  - by rewrite H.
  - destruct H as [ss ->]. simpl. eauto.
Qed.

(** X4.  A query reports the first handle that fails the test of
    [getAuthorData]: going through the raw events that pass the filter in
    the order of the store, through their sessions in order and through the
    participants of a session in order, the call throws
    [Invalid author: <handle>] for the first handle for which [authorsData]
    has neither an entry nor an inherited property, whatever comes after it;
    the comparator has no part in this. *)
Theorem getEvents_first_unknown c filter sort locale h :
  firstUndefined (flat_map eventHandles (retained c filter locale)) = Some h ->
  getEvents c filter sort locale = Throw (invalidAuthor h).
Proof.
  intros Hh. rewrite getEvents_retained.
  pose proof (mapM_resolvesInOrder _ _
                (eventItem_resolvesInOrder (default "en" locale))
                (retained c filter locale)) as H.
  rewrite Hh in H. by rewrite H.
Qed.

(** The other half: when every handle passes the test the query returns. *)
Lemma getEvents_none_unknown c filter sort locale :
  firstUndefined (flat_map eventHandles (retained c filter locale)) = None ->
  exists events, getEvents c filter sort locale = Ok events.
Proof.
  intros Hh. rewrite getEvents_retained.
  pose proof (mapM_resolvesInOrder _ _
                (eventItem_resolvesInOrder (default "en" locale))
                (retained c filter locale)) as H.
  rewrite Hh in H. destruct H as [payload ->]. simpl. eauto.
Qed.

End ErrorOrder.

(** X4 on a panel of Bob, [ghost] and [phantom], and on a panel of
    [toString] and [ghost]: the error names [ghost] both times, the
    inherited name [toString] passing the test. *)
Lemma getEvents_first_unknown_witness :
  getEvents (X := Sample.externals) Sample.site_with_two_ghosts None None None =
    Throw "Invalid author: ghost" /\
  getEvents (X := Sample.externals) Sample.site_with_inherited_name
    None None None = Throw "Invalid author: ghost".
Proof.
  split.
  - apply (getEvents_first_unknown (X := Sample.externals)
             Sample.site_with_two_ghosts None None None "ghost").
    vm_compute. reflexivity.
  - apply (getEvents_first_unknown (X := Sample.externals)
             Sample.site_with_inherited_name None None None "ghost").
    vm_compute. reflexivity.
Defined.

(** ** Queries *)

Section Queries.
Context {X : Externals}.

Lemma eventItem_copiedFrom locale event e :
  eventItem locale event = Ok e -> copiedFrom event e.
Proof.
  unfold eventItem, copiedFrom.
  destruct (mapM _ _); simpl; [|discriminate].
  intros [= <-]. simpl. by split_and!.
Qed.

(** X5.  A query without a comparator answers in the order of the content
    store: it returns one normalized event for every raw event that passes
    the filter, at the same position, and that event has the identifier,
    title, external URL, summary, location and date of the raw event, the
    flag that [isPastEvent] gives for it, and an image of 400 by 400 built
    from the image of the event, or from the placeholder when it has none,
    with the title as its [alt]. *)
Theorem getEvents_unsorted c filter locale events :
  getEvents c filter None locale = Ok events ->
  Forall2 copiedFrom (retained c filter locale) events.
Proof.
  rewrite getEvents_retained.
  destruct (mapM _ _) as [payload|m] eqn:Hp; simpl; [|discriminate].
  intros [= <-]. apply mapM_Ok_Forall2 in Hp.
  eapply Forall2_impl; [exact Hp|]. intros event e. apply eventItem_copiedFrom.
Qed.

(** X6.  The comparator only reorders: a query with a comparator fails
    exactly when the same query without one fails, with the same error, and
    when it returns its result is a rearrangement of the result of the query
    without a comparator. *)
Theorem getEvents_sort_reorders c filter cmp locale :
  match getEvents c filter None locale with
  | Ok plain =>
      getEvents c filter (Some cmp) locale = Ok (Array_sort cmp plain) /\
      Array_sort cmp plain ≡ₚ plain
  | Throw m => getEvents c filter (Some cmp) locale = Throw m
  end.
Proof.
  rewrite !getEvents_retained.
  destruct (mapM _ _) as [payload|m]; simpl; [|done].
  split; [done | apply Array_sort_perm].
Qed.

(** X7.  Every event that [pastEvents] returns has the flag [isPastEvent]
    set, and no event that [currentEvents] returns has it, whether or not
    the other events of the store can be normalized. *)
Theorem views_flags c :
  (forall past, pastEvents c = Ok past ->
     Forall (fun e => Event.isPastEvent e = true) past) /\
  (forall current, currentEvents c = Ok current ->
     Forall (fun e => Event.isPastEvent e = false) current).
Proof.
  split; intros events Hev; apply Forall_forall; intros e He;
    unfold pastEvents, currentEvents in Hev.
  - destruct (getEvents_items _ _ _ _ _ _ Hev He) as (event & Hin & Hitem).
    apply elem_of_filter in Hin as [_ Hpast].
    apply eventItem_fields in Hitem as (_ & _ & ->). exact Hpast.
  - destruct (getEvents_items _ _ _ _ _ _ Hev He) as (event & Hin & Hitem).
    apply elem_of_filter in Hin as [_ Hpast].
    apply eventItem_fields in Hitem as (_ & _ & ->).
    by apply negb_true_iff in Hpast.
Qed.

(** X8.  A store without events for the English glob gives two empty views
    and three empty facets; no author is looked up. *)
Theorem empty_store c :
  getFilteredByGlob c "./site/en/meet-the-team/events/**/*.md" = [] ->
  pastEvents c = Ok [] /\
  currentEvents c = Ok [] /\
  eventTags c = Ok {| Tags.locations := []; Tags.speakers := []; Tags.topics := [] |}.
Proof.
  intros Hnone.
  assert (forall filter sort, getEvents c filter sort None = Ok []) as Hq.
  { intros filter sort. rewrite getEvents_retained. unfold retained.
    change (events_glob (default "en" None))
      with "./site/en/meet-the-team/events/**/*.md".
    rewrite Hnone. by destruct filter, sort. }
  unfold pastEvents, currentEvents, eventTags. by rewrite !Hq.
Qed.

Lemma getEvents_Ok_known c filter sort locale events :
  getEvents c filter sort locale = Ok events ->
  Forall resolvable (flat_map eventHandles (retained c filter locale)).
Proof.
  rewrite getEvents_retained.
  pose proof (mapM_resolves _ _ _ (eventItem_resolves (default "en" locale))
                (retained c filter locale)) as H.
  by destruct (mapM _ _).
Qed.

Lemma Forall_flat_map {A B : Type} (P : B -> Prop) (f : A -> list B) (l : list A) :
  Forall P (flat_map f l) <-> Forall (fun x => Forall P (f x)) l.
Proof.
  induction l as [|x l IH]; simpl.
  - split; constructor.
  - rewrite Forall_app, Forall_cons, IH. tauto.
Qed.

(** X9.  The facets can be computed exactly when the two views can:
    [eventTags] returns if and only if both [pastEvents] and
    [currentEvents] return. *)
Theorem eventTags_iff_views c :
  (exists tags, eventTags c = Ok tags) <->
  (exists past, pastEvents c = Ok past) /\
  (exists current, currentEvents c = Ok current).
Proof.
  split.
  - intros [tags Htags]. unfold eventTags in Htags.
    destruct (getEvents c None None None) as [all|m] eqn:Hall; [|discriminate].
    split; eexists; [by apply pastEvents_of_all | by apply currentEvents_of_all].
  - intros [[past Hpast%getEvents_Ok_known] [current Hcur%getEvents_Ok_known]].
    destruct (getEvents_outcome c None None None) as [_ Hok].
    destruct Hok as [all Hall].
    + unfold retained in *. simpl in *.
      rewrite Forall_flat_map, Forall_forall in Hpast, Hcur |- *.
      intros event Hin. destruct (isPastEvent event) eqn:Hp.
      * apply Hpast. by apply elem_of_filter.
      * apply Hcur. apply elem_of_filter. by rewrite Hp.
    + exists (facets all). unfold eventTags. by rewrite Hall.
Qed.

End Queries.

(** X5 on the sample site: the unfiltered query keeps the order 1, 2, 3 of
    the store. *)
Lemma getEvents_unsorted_witness :
  exists events,
    getEvents (X := Sample.externals) Sample.site None None None = Ok events /\
    ids events = [1; 2; 3] /\
    Forall2 (copiedFrom (H := Sample.externals))
      [Sample.event1; Sample.event2; Sample.event3] events.
Proof.
  destruct (getEvents (X := Sample.externals) Sample.site None None None)
    as [events|m] eqn:Hev; [|vm_compute in Hev; discriminate].
  pose proof (getEvents_unsorted (X := Sample.externals) Sample.site None None
                events Hev) as Hcopy.
  exists events. split; [reflexivity|]. split; [|exact Hcopy].
  vm_compute in Hev. by injection Hev as <-.
Defined.

(** X7 on the sample site with an unknown speaker in a coming event: the
    past view is still computed, and its one event is flagged. *)
Lemma views_flags_witness :
  exists past,
    pastEvents (X := Sample.externals) Sample.site_with_ghost = Ok past /\
    ids past = [1] /\
    Forall (fun e => Event.isPastEvent e = true) past.
Proof.
  destruct (pastEvents (X := Sample.externals) Sample.site_with_ghost)
    as [past|m] eqn:Hp; [|vm_compute in Hp; discriminate].
  destruct (views_flags (X := Sample.externals) Sample.site_with_ghost)
    as [Hflags _].
  pose proof (Hflags past Hp) as Hall.
  exists past. split; [reflexivity|]. split; [|exact Hall].
  vm_compute in Hp. by injection Hp as <-.
Defined.

(** X8 on a store that only has a French event. *)
Lemma empty_store_witness :
  pastEvents (X := Sample.externals) (Sample.storeFr [Sample.event1]) = Ok [] /\
  currentEvents (X := Sample.externals) (Sample.storeFr [Sample.event1]) = Ok [] /\
  eventTags (X := Sample.externals) (Sample.storeFr [Sample.event1]) =
    Ok {| Tags.locations := []; Tags.speakers := []; Tags.topics := [] |}.
Proof.
  apply (empty_store (X := Sample.externals) (Sample.storeFr [Sample.event1])).
  reflexivity.
Defined.

(** ** The order of events of the same date *)

Section Stability.
Context {A : Type} (cmp : A -> A -> Z) (p : A -> bool).
Hypothesis passes_only_others :
  forall x y, p x = true -> 0 < cmp x y -> p y = false.

Lemma sort_insert_select x l :
  List.filter p (sort_insert cmp x l) =
  if p x then x :: List.filter p l else List.filter p l.
Proof.
  induction l as [|y l IH]; simpl; [done|].
  destruct (Z.ltb_spec 0 (cmp x y)) as [Hxy|Hxy]; simpl; [|done].
  rewrite IH. destruct (p x) eqn:Hx; [|done].
  by rewrite (passes_only_others x y Hx Hxy).
Qed.

(** The elements that [p] selects keep their relative order when [p] never
    selects two elements of which the sort puts one after the other. *)
Lemma Array_sort_select l :
  List.filter p (Array_sort cmp l) = List.filter p l.
Proof.
  induction l as [|x l IH]; simpl; [done|].
  rewrite sort_insert_select, IH. by destruct (p x).
Qed.

End Stability.

Section SameDate.
Context {X : Externals}.

(** X10.  With comparators that order by date, the events of one date
    appear in a view in the order of the content store: for every date, the
    events of that date in the result of [pastEvents] (of [currentEvents])
    are, in the same order, the events of that date in the result of the
    same query without a comparator. *)
Theorem same_date_keeps_order c :
  ascendingByDate sortAsc ->
  descendingByDate sortDesc ->
  (forall past, pastEvents c = Ok past ->
     exists plain,
       getEvents c (Some isPastEvent) None None = Ok plain /\
       forall d, List.filter (onDate d) past = List.filter (onDate d) plain) /\
  (forall current, currentEvents c = Ok current ->
     exists plain,
       getEvents c (Some (fun e => negb (isPastEvent e))) None None = Ok plain /\
       forall d, List.filter (onDate d) current = List.filter (onDate d) plain).
Proof.
  intros Hasc Hdesc. unfold pastEvents, currentEvents.
  split; intros sorted; rewrite !getEvents_retained;
    destruct (mapM _ _) as [plain|m]; simpl; try discriminate;
    intros [= <-]; exists plain; (split; [reflexivity|]); intros d;
    apply Array_sort_select; unfold onDate; intros x y Hx Hxy;
    apply Z.eqb_eq in Hx; apply Z.eqb_neq.
  - apply Hdesc in Hxy. lia.
  - apply Hasc in Hxy. lia.
Qed.

End SameDate.

(** X10 on three past events of which the first and the last of the store
    share a day: the later event comes first, the two others follow in the
    order of the store. *)
Lemma same_date_keeps_order_witness :
  exists past,
    pastEvents (X := Sample.externals) Sample.site_of_a_shared_day = Ok past /\
    ids past = [8; 7; 9] /\
    ids (List.filter (onDate 1577836800000) past) = [7; 9].
Proof.
  destruct (pastEvents (X := Sample.externals) Sample.site_of_a_shared_day)
    as [past|m] eqn:Hp; [|vm_compute in Hp; discriminate].
  destruct (same_date_keeps_order (X := Sample.externals)
              Sample.site_of_a_shared_day
              sample_sortAsc_ascending sample_sortDesc_descending) as [Hpast _].
  destruct (Hpast past Hp) as (plain & Hplain & Hsame).
  exists past. split; [reflexivity|]. split.
  - vm_compute in Hp. by injection Hp as <-.
  - rewrite Hsame. vm_compute in Hplain. by injection Hplain as <-.
Defined.

(** ** The facets and the raw events *)

Section RawFacets.
Context {X : Externals}.

Lemma processSession_tags session locale s :
  processSession session locale = Ok s ->
  Session.topics s = RawSession.topics session /\
  List.map SpeakerTag.handle (speakerTags s) = sessionHandles session /\
  Forall (resolvedPair locale) (speakerTags s).
Proof.
  unfold processSession, sessionHandles, speakerTags, resolvedPair.
  destruct (String.eqb (RawSession.type session) "speaker").
  - destruct (getAuthorData _ _) as [sp|m] eqn:Hsp; simpl; [|discriminate].
    intros [= <-]. simpl.
    apply getAuthorData_Ok in Hsp as (Hk & Hh & Ht).
    split; [done|]. split; [by rewrite Hh|].
    constructor; [|constructor]. simpl. by rewrite Hh.
  - destruct (mapM _ _) as [ps|m] eqn:Hps; simpl; [|discriminate].
    intros [= <-]. simpl. split; [done|].
    apply mapM_Ok_Forall2 in Hps.
    induction Hps as [|h p hs ps Hp _ [IH1 IH2]]; simpl; [by split|].
    apply getAuthorData_Ok in Hp as (Hk & Hh & Ht).
    split; [by rewrite Hh, IH1|].
    constructor; [|exact IH2]. simpl. by rewrite Hh.
Qed.

Lemma eventItem_tags locale event e :
  eventItem locale event = Ok e ->
  Event.location e = EventData.location (CollectionItem.data event) /\
  flat_map Session.topics (Event.sessions e) =
    flat_map RawSession.topics (EventData.sessions (CollectionItem.data event)) /\
  List.map SpeakerTag.handle (flat_map speakerTags (Event.sessions e)) =
    eventHandles event /\
  Forall (resolvedPair locale) (flat_map speakerTags (Event.sessions e)).
Proof.
  unfold eventItem, eventHandles.
  destruct (mapM _ _) as [sessions|m] eqn:Hs; simpl; [|discriminate].
  intros [= <-]. simpl. split; [done|].
  apply mapM_Ok_Forall2 in Hs.
  induction Hs as [|session s raws ss Hok _ (IH1 & IH2 & IH3)]; simpl.
  - by split_and!.
  - apply processSession_tags in Hok as (Ht & Hh & Hd).
    rewrite map_app, Ht, Hh, IH1, IH2. split_and!; try done.
    by apply Forall_app.
Qed.

Lemma events_tags locale raw events :
  mapM (eventItem locale) raw = Ok events ->
  List.map Event.location events = rawLocations raw /\
  allTopics events = rawTopics raw /\
  List.map SpeakerTag.handle (rawSpeakers events) = flat_map eventHandles raw /\
  Forall (resolvedPair locale) (rawSpeakers events).
Proof.
  intros H%mapM_Ok_Forall2. unfold allTopics, rawTopics, rawSpeakers, rawLocations.
  induction H as [|event e raw events Hok _ (IH1 & IH2 & IH3 & IH4)]; simpl.
  - by split_and!.
  - apply eventItem_tags in Hok as (Hl & Ht & Hh & Hd).
    rewrite map_app, Hl, Ht, Hh, IH1, IH2, IH3. split_and!; try done.
    by apply Forall_app.
Qed.

(** X11.  When [eventTags] returns, its facets are read off the raw events
    of the English glob: the locations are the distinct locations of the raw
    events and the topics the distinct topics of their sessions, each list
    sorted by [localeCompare], so that neither depends on the author
    directory or on the localization service; the speakers facet has exactly
    one entry for every handle that a raw session refers to (its speaker if
    its type is ['speaker'], its participants otherwise). *)
Theorem eventTags_from_raw c tags :
  eventTags c = Ok tags ->
  let raw := getFilteredByGlob c "./site/en/meet-the-team/events/**/*.md" in
  Tags.locations tags = Array_sort localeCompare (Set_spread (rawLocations raw)) /\
  Tags.topics tags = Array_sort localeCompare (Set_spread (rawTopics raw)) /\
  eachOnce (List.map SpeakerTag.handle (Tags.speakers tags))
    (flat_map eventHandles raw).
Proof.
  unfold eventTags.
  destruct (getEvents c None None None) as [events|m] eqn:Hev; simpl; [|discriminate].
  intros [= <-]. simpl.
  apply getEvents_all, events_tags in Hev as (Hl & Ht & Hh & _).
  change (events_glob "en") with "./site/en/meet-the-team/events/**/*.md" in *.
  unfold uniqueLocations, uniqueTopics. rewrite Hl, Ht.
  split; [done|]. split; [done|].
  rewrite uniqueSpeakers_firsts, <- Hh. split.
  - rewrite (Permutation_map _ (Array_sort_perm _ _)). apply firsts_NoDup.
  - intros h. rewrite (Permutation_map _ (Array_sort_perm _ _)), firsts_keys.
    split; [tauto|]. intros Hin. split; [done | apply not_elem_of_nil].
Qed.

(** X12.  When [eventTags] returns, every entry of the speakers facet has a
    handle that passes the test of [getAuthorData], a handle of the author
    directory or the name of an inherited property, and its title is what
    [i18n] returns for the key [i18n.authors.<handle>.title] and the locale
    ['en']: in the output of the pipeline a handle never carries two
    titles. *)
Theorem eventTags_speakers_titles c tags :
  eventTags c = Ok tags ->
  Forall (resolvedPair "en") (Tags.speakers tags).
Proof.
  unfold eventTags.
  destruct (getEvents c None None None) as [events|m] eqn:Hev; simpl; [|discriminate].
  intros [= <-]. simpl.
  apply getEvents_all, events_tags in Hev as (_ & _ & _ & Hd).
  rewrite uniqueSpeakers_firsts.
  rewrite Forall_forall in Hd |- *. intros s Hs. apply Hd.
  rewrite Array_sort_perm in Hs. by eapply firsts_elem.
Qed.

End RawFacets.

(** X11 on the sample site, and X12 on the site where [toString] gives a
    talk. *)
Lemma eventTags_from_raw_witness :
  exists tags,
    eventTags (X := Sample.externals) Sample.site = Ok tags /\
    Tags.locations tags = ["Berlin"; "Online"] /\
    Tags.topics tags = ["css"; "devtools"; "pwa"] /\
    NoDup (List.map SpeakerTag.handle (Tags.speakers tags)) /\
    forall h, h ∈ List.map SpeakerTag.handle (Tags.speakers tags) <->
              h ∈ ["alice"; "bob"; "carol"; "bob"; "alice"].
Proof.
  destruct (eventTags (X := Sample.externals) Sample.site) as [tags|m] eqn:Ht;
    [|vm_compute in Ht; discriminate].
  destruct (eventTags_from_raw (X := Sample.externals) Sample.site tags Ht)
    as (Hl & Htop & Hnd & Hin).
  exists tags. split; [reflexivity|].
  split; [rewrite Hl; vm_compute; reflexivity|].
  split; [rewrite Htop; vm_compute; reflexivity|].
  split; [exact Hnd | exact Hin].
Defined.

Lemma eventTags_speakers_titles_witness :
  exists tags,
    eventTags (X := Sample.externals) Sample.site_of_toString = Ok tags /\
    Tags.speakers tags =
      [ {| SpeakerTag.handle := "alice";
           SpeakerTag.title := "i18n.authors.alice.title@en" |};
        {| SpeakerTag.handle := "toString";
           SpeakerTag.title := "i18n.authors.toString.title@en" |} ] /\
    Forall (resolvedPair (H := Sample.externals) "en") (Tags.speakers tags).
Proof.
  destruct (eventTags (X := Sample.externals) Sample.site_of_toString)
    as [tags|m] eqn:Ht; [|vm_compute in Ht; discriminate].
  pose proof (eventTags_speakers_titles (X := Sample.externals)
                Sample.site_of_toString tags Ht) as Hall.
  exists tags. split; [reflexivity|]. split; [|exact Hall].
  vm_compute in Ht. by injection Ht as <-.
Defined.
